(** * metastr: fixed-capacity string literals, their equality, transcoding
    and concatenation (include/metastr.hh)

    Code units are modelled by their numeric value in [Z], tagged with the
    character class of the buffer that holds them.  A buffer [Char str[N]] is
    a [list Z] of length [N]; writes through an index are stdpp list inserts,
    guarded by an explicit bounds test because C++ gives no meaning to an
    access outside the array. *)

From Stdlib Require Import ZArith Lia Bool String Ascii.
From stdpp Require Import base list.

Local Open Scope Z_scope.

(** ** Outcomes of a run

    A call either returns a value, or ends in [terminate()], or leaves the
    defined behaviour of C++: an access outside an array, or an iterator
    moved before [begin]; the kind records which one happened. *)

Inductive ub_kind : Type :=
  | ReadPastEnd        (* str[i] read with i >= N *)
  | WritePastEnd       (* res.str[index] written with index >= capacity *)
  | PtrBeforeBegin.    (* str + N - 2 with N < 2, or end() - 1 of an empty view *)

Inductive outcome (A : Type) : Type :=
  | Ret (a : A)
  | Abort
  | Undefined (k : ub_kind).

Arguments Ret {A} a.
Arguments Abort {A}.
Arguments Undefined {A} k.

(** Modelled from the spec: [fatal_error::terminate()], called by
    metastr.hh from a header (fatal_error.hh) that is not among the sources.
    It is the abort capability of the specification, "a zero-argument,
    no-return call that immediately and unconditionally stops the process",
    which is also what [ctb::shutdown::terminate] of ctb/shutdown.hh is
    (noreturn, [__builtin_trap] or [abort]): nothing is returned. *)
Definition terminate {A : Type} : outcome A := Abort.

#[global] Instance outcome_ret : MRet outcome := fun A a => Ret a.
#[global] Instance outcome_bind : MBind outcome := fun A B f m =>
  match m with
  | Ret a => f a
  | Abort => Abort
  | Undefined k => Undefined k
  end.

(** ** Character classes and the platform *)

(** The five types accepted by the concept [is_char]. *)
Inductive char_class : Type := Char | WChar | Char8 | Char16 | Char32.

#[global] Instance char_class_eq_dec : EqDecision char_class.
Proof. solve_decision. Defined.

(** What the build fixes: whether plain [char] is signed, and whether
    [_WIN32] is defined ([wchar_t] is then an unsigned 16-bit type; otherwise
    it is taken as the signed 32-bit type of the common Unix ABIs). *)
Record Platform : Type := { char_signed : bool; win32 : bool }.

Definition linux : Platform := {| char_signed := true; win32 := false |}.

Section Classes.
Variable P : Platform.

Definition is_utf8 (c : char_class) : bool :=
  match c with Char8 | Char => true | _ => false end.

Definition is_utf16 (c : char_class) : bool :=
  match c with
  | WChar => win32 P
  | Char16 => true
  | _ => false
  end.

Definition is_utf32 (c : char_class) : bool :=
  match c with
  | WChar => negb (win32 P)
  | Char32 => true
  | _ => false
  end.

Definition bits (c : char_class) : Z :=
  match c with
  | Char | Char8 => 8
  | Char16 => 16
  | Char32 => 32
  | WChar => if win32 P then 16 else 32
  end.

Definition is_signed (c : char_class) : bool :=
  match c with
  | Char => char_signed P
  | WChar => negb (win32 P)
  | _ => false
  end.

(** [static_cast<C>(v)], and the implicit conversion of an assignment to
    an object of class [C]: the value modulo 2^bits, in the range of [C]. *)
Definition cast (c : char_class) (v : Z) : Z :=
  let m := 2 ^ bits c in
  if is_signed c then (v + m / 2) mod m - m / 2 else v mod m.

Definition in_range (c : char_class) (v : Z) : Prop :=
  if is_signed c then - 2 ^ (bits c - 1) <= v < 2 ^ (bits c - 1)
  else 0 <= v < 2 ^ bits c.

End Classes.

(** [a == b] for [a] of class [ca] and [b] of class [cb].  Both operands
    are promoted: every class goes to [int] except [char32_t], which goes
    to [unsigned int]; when one side is unsigned the other is converted to
    it, that is, taken modulo 2^32.  No decoding takes place. *)
Definition promotes_unsigned (c : char_class) : bool :=
  match c with Char32 => true | _ => false end.

Definition unit_eq (ca cb : char_class) (a b : Z) : bool :=
  if promotes_unsigned ca || promotes_unsigned cb
  then (a mod 2 ^ 32 =? b mod 2 ^ 32)
  else (a =? b).

(** [u != '\0'] negated: the unit of class [c] compares equal to the
    [char] zero. *)
Definition is_nul (c : char_class) (u : Z) : bool := unit_eq c Char u 0.

(** ** The metastr structure *)

(** [template<is_char Char, size_t N> struct metastr { Char str[N]{}; }].
    [len] is the template argument [N], the length of the array. *)
Record metastr : Type := { char_type : char_class; str : list Z }.

Definition len (s : metastr) : nat := length (str s).

(** [::std::copy(first, first + n, dst + off)] into the array [dst]: each
    element of the source range is stored through its index.  Every call
    below leaves room for the whole range in [dst]. *)
Fixpoint std_copy (src : list Z) (off : nat) (dst : list Z) : list Z :=
  match src with
  | [] => dst
  | x :: src' => std_copy src' (S off) (<[off := x]> dst)
  end.

(** [Char str[N]{}]: N zero units. *)
Definition zeros (n : nat) : list Z := replicate n 0.

(** [constexpr metastr(Char const (&arr)[N])]: copies [arr, arr + N - 1)
    over the zero-initialised member; the last slot is not copied. *)
Definition mk_metastr (c : char_class) (arr : list Z) : metastr :=
  let N := length arr in
  {| char_type := c; str := std_copy (take (N - 1) arr) 0 (zeros N) |}.

(** ** Equality *)

(** [::std::equal(a, a + n, b)] with the built-in [==] of the two unit
    classes.  Every call below keeps [n] within both arrays. *)
Fixpoint std_equal (eqb : Z -> Z -> bool) (n : nat) (a b : list Z) : bool :=
  match n, a, b with
  | O, _, _ => true
  | S n', x :: a', y :: b' => if eqb x y then std_equal eqb n' a' b' else false
  | S _, _, _ => false
  end.

(** [operator==(Char_r const (&other)[N_r])] *)
Definition eq_array (s : metastr) (c_r : char_class) (other : list Z)
    : outcome bool :=
  let N := len s in
  let N_r := length other in
  if (N <=? N_r)%nat then
    if (N <? 2)%nat then Undefined PtrBeforeBegin
    else if negb (std_equal (unit_eq (char_type s) c_r) (N - 2) (str s) other)
    then Ret false
    else Ret (forallb (is_nul c_r) (drop (N - 1) other))
  else
    if (N_r <? 2)%nat then Undefined PtrBeforeBegin
    else if negb (std_equal (unit_eq c_r (char_type s)) (N_r - 2) other (str s))
    then Ret false
    else Ret (forallb (is_nul (char_type s)) (drop (N_r - 1) (str s))).

(** [operator==(metastr<Char_r, N_r> const& other)]: [*this == other.str] *)
Definition eq_metastr (s other : metastr) : outcome bool :=
  eq_array s (char_type other) (str other).

(** [operator==(basic_string_view<Char_r> const& other)]; the view is its
    class and its [size()] units. *)
Definition eq_view (s : metastr) (c_r : char_class) (other : list Z)
    : outcome bool :=
  let N := len s in
  let size := length other in
  if (N <=? size)%nat then
    if (N <? 2)%nat then Undefined PtrBeforeBegin
    else if negb (std_equal (unit_eq (char_type s) c_r) (N - 2) (str s) other)
    then Ret false
    else Ret (forallb (is_nul c_r) (drop (N - 1) other))
  else
    if (size <? 1)%nat then Undefined PtrBeforeBegin
    else if negb (std_equal (unit_eq c_r (char_type s)) (size - 1) other (str s))
    then Ret false
    else Ret (forallb (is_nul (char_type s)) (drop size (str s))).

(** A narrow literal of ASCII characters: the listed characters followed by
    the terminator the compiler appends, so ["abc"] has four units. *)
Fixpoint lit (s : string) : list Z :=
  match s with
  | EmptyString => [0]
  | String a s' => Z.of_nat (nat_of_ascii a) :: lit s'
  end.

(** ** Transcoding *)

Definition LEAD_SURROGATE_MIN : Z := 0xd800.
Definition LEAD_SURROGATE_MAX : Z := 0xdbff.
Definition TRAIL_SURROGATE_MIN : Z := 0xdc00.
Definition TRAIL_SURROGATE_MAX : Z := 0xdfff.
(* 0x10000u - (LEAD_SURROGATE_MIN << 10) - TRAIL_SURROGATE_MIN *)
Definition SURROGATE_OFFSET : Z := 0xfca02400.
(* Maximum valid value for a Unicode code point *)
Definition CODE_POINT_MAX : Z := 0x0010ffff.

(** Arithmetic in [char32_t] wraps modulo 2^32. *)
Definition wrap32 (v : Z) : Z := v mod 2 ^ 32.

(** The output [metastr res] under construction and the write [index]. *)
Record cursor : Type := { res : list Z; index : nat }.

Section Transcoding.
Variable P : Platform.
(** [checked] is true when NDEBUG is not defined. *)
Variable checked : bool.
Variable u8_type : char_class.

(** [res.str[index++] = static_cast<u8_type>(v)] *)
Definition put (v : Z) (st : cursor) : outcome cursor :=
  if (index st <? length (res st))%nat
  then Ret {| res := <[index st := cast P u8_type v]> (res st);
              index := S (index st) |}
  else Undefined WritePastEnd.

(** The if-chain on [u32chr] that closes the loop body of [utf32to8]
    (l.195-209) and, letter for letter, of [utf16to8] (l.251-265). *)
Definition emit (u32chr : Z) (st : cursor) : outcome cursor :=
  if u32chr <? 0x80 then
    put u32chr st
  else if u32chr <? 0x800 then
    st ← put (Z.lor (Z.shiftr u32chr 6) 0xc0) st;
    put (Z.lor (Z.land u32chr 0x3f) 0x80) st
  else if u32chr <? 0x10000 then
    st ← put (Z.lor (Z.shiftr u32chr 12) 0xe0) st;
    st ← put (Z.lor (Z.land (Z.shiftr u32chr 6) 0x3f) 0x80) st;
    put (Z.lor (Z.land u32chr 0x3f) 0x80) st
  else
    st ← put (Z.lor (Z.shiftr u32chr 18) 0xf0) st;
    st ← put (Z.lor (Z.land (Z.shiftr u32chr 12) 0x3f) 0x80) st;
    st ← put (Z.land (Z.shiftr u32chr 6) 0x3f) st;
    put (Z.lor (Z.land u32chr 0x3f) 0x80) st.

(** The test under [#ifndef NDEBUG] of [utf32to8].  [CODE_POINT_MAX] is a
    [char32_t], so that comparison is made in [unsigned int]; the
    surrogate bounds are [char16_t] and compare by value. *)
Definition invalid_scalar (u32chr : Z) : bool :=
  (wrap32 u32chr >? CODE_POINT_MAX)
  || (u32chr >=? LEAD_SURROGATE_MIN) && (u32chr <=? TRAIL_SURROGATE_MAX).

(** [for (auto u32chr : u32str.str)] *)
Fixpoint utf32_loop (units : list Z) (st : cursor) : outcome cursor :=
  match units with
  | [] => Ret st
  | u32chr :: units' =>
      if checked && invalid_scalar u32chr then terminate
      else st ← emit u32chr st; utf32_loop units' st
  end.

(** The state at [return res]: the filled buffer and the final index. *)
Definition utf32_run (u32str : metastr) : outcome cursor :=
  let N := len u32str in
  let res0 := mk_metastr u8_type (zeros (N * 4 - 3)) in
  utf32_loop (str u32str) {| res := str res0; index := 0 |}.

Definition utf32to8 (u32str : metastr) : outcome metastr :=
  st ← utf32_run u32str;
  Ret {| char_type := u8_type; str := res st |}.

Definition is_lead (u : Z) : bool :=
  (u >=? LEAD_SURROGATE_MIN) && (u <=? LEAD_SURROGATE_MAX).
Definition is_trail (u : Z) : bool :=
  (u >=? TRAIL_SURROGATE_MIN) && (u <=? TRAIL_SURROGATE_MAX).

(** [for (size_t i{}; i < N;)]: [units] is what is left of the array from
    index [i] on, so [units = []] is [i >= N]. *)
Fixpoint utf16_loop (units : list Z) (st : cursor) : outcome cursor :=
  match units with
  | [] => Ret st
  | u :: units' =>
      let u32chr := Z.land u 0xffff in
      if checked && is_trail u32chr then terminate
      else if is_lead u32chr then
        match units' with
        | [] => if checked then terminate else Undefined ReadPastEnd
        | t :: units'' =>
            let trail_surrogate := Z.land t 0xffff in
            if checked && negb (is_trail trail_surrogate) then terminate
            else
              let u32chr :=
                wrap32 (Z.shiftl u32chr 10 + trail_surrogate + SURROGATE_OFFSET) in
              st ← emit u32chr st; utf16_loop units'' st
        end
      else st ← emit u32chr st; utf16_loop units' st
  end.

Definition utf16_run (u16str : metastr) : outcome cursor :=
  let N := len u16str in
  let res0 := mk_metastr u8_type (zeros (4 * N - 3)) in
  utf16_loop (str u16str) {| res := str res0; index := 0 |}.

Definition utf16to8 (u16str : metastr) : outcome metastr :=
  st ← utf16_run u16str;
  Ret {| char_type := u8_type; str := res st |}.

End Transcoding.

(** [code_cvt<Char_r>(str)].  When no branch of the [if constexpr] chain is
    taken the function has no return statement and yields no metastr:
    [None]. *)
Definition code_cvt (P : Platform) (checked : bool) (Char_r : char_class)
    (s : metastr) : option (outcome metastr) :=
  let C := char_type s in
  let N := len s in
  if is_utf8 C && is_utf8 Char_r
     || is_utf16 P C && is_utf16 P Char_r
     || is_utf32 P C && is_utf32 P Char_r
  then
    (* [Char_r tmp_[N]{}; copy(str.str, str.str + N - 1, tmp_)]: each unit
       is converted to [Char_r] by the assignment *)
    let tmp_ := std_copy (cast P Char_r <$> take (N - 1) (str s)) 0 (zeros N) in
    Some (Ret (mk_metastr Char_r tmp_))
  else if is_utf32 P C && is_utf8 Char_r then Some (utf32to8 P checked Char_r s)
  else if is_utf16 P C && is_utf8 Char_r then Some (utf16to8 P checked Char_r s)
  else None.

(** ** Concatenation *)

(** The buffer of [res] and the two counters [index] and [offset] that the
    fold over [strs] advances. *)
Record concat_state : Type :=
  { c_buf : list Z; c_index : nat; c_offset : nat }.

(** One element of the fold
    [copy(strs.str, strs.str + Strs::len - 1,
          (offset += lens[index++], res.str + offset))]. *)
Definition concat_step (lens : list nat) (st : concat_state) (s : metastr)
    : concat_state :=
  let offset := (c_offset st + nth (c_index st) lens 0)%nat in
  {| c_buf := std_copy (take (len s - 1) (str s)) offset (c_buf st);
     c_index := S (c_index st);
     c_offset := offset |}.

(** [concat(Str1 const& str1, Strs const&... strs)].  There is no metastr
    ([None]) when the call is ill-formed: the size of [tmp_] contains the
    unary fold [(Strs::len + ...)], and a unary fold over [+] has no value
    for an empty pack; and the requires-clause wants every [char_type] to
    be that of [str1]. *)
Definition concat (str1 : metastr) (strs : list metastr) : option metastr :=
  match strs with
  | [] => None
  | _ :: _ =>
      if forallb (fun s => bool_decide (char_type str1 = char_type s)) strs then
        let tmp_ := zeros (len str1 + sum_list (len <$> strs) - length strs) in
        let res := mk_metastr (char_type str1) tmp_ in
        let lens := (len str1 - 1)%nat :: ((fun s => (len s - 1)%nat) <$> strs) in
        let st0 :=
          {| c_buf := std_copy (take (len str1 - 1) (str str1)) 0 (str res);
             c_index := 0; c_offset := 0 |} in
        Some {| char_type := char_type str1;
                str := c_buf (fold_left (concat_step lens) strs st0) |}
      else None
  end.

(** An argument accepted by [details::can_concat]: a metastr or a raw
    array of some character class. *)
Inductive concat_arg : Type :=
  | a_metastr (s : metastr)
  | a_c_str (c : char_class) (arr : list Z).

(** [concat(T const&... strs)]: arrays are wrapped by [metastr{strs}],
    metastrs pass unchanged, and the result goes to the overload above. *)
Definition wrap_arg (a : concat_arg) : metastr :=
  match a with
  | a_metastr s => s
  | a_c_str c arr => mk_metastr c arr
  end.

Definition concat_args (args : list concat_arg) : option metastr :=
  match wrap_arg <$> args with
  | [] => None
  | str1 :: strs => concat str1 strs
  end.

(** ** Conversions to the runtime string types *)

(** [operator basic_string_view<Char>()] and [operator basic_string<Char>()]:
    both are [{str, N - 1}]. *)
Definition to_view (s : metastr) : list Z := take (len s - 1) (str s).

(** [operator==(basic_string<Char_r> const other)]:
    [*this == basic_string_view<Char_r>{other}]. *)
Definition eq_string (s : metastr) (c_r : char_class) (other : list Z)
    : outcome bool :=
  eq_view s c_r other.

(** ** The named tuple (namedtuple.hh), which looks fields up by metastr *)

(** [basic_string_view<Char>{First.str}]: the view is built from the pointer
    to the array, so it ends before the first zero unit
    ([char_traits::length]); an array that holds no zero is read past its
    end. *)
Fixpoint c_str_view (units : list Z) : outcome (list Z) :=
  match units with
  | [] => Undefined ReadPastEnd
  | u :: units' =>
      if u =? 0 then Ret [] else v ← c_str_view units'; Ret (u :: v)
  end.

(** Everything in the named tuple is evaluated at compile time ([consteval],
    [static constexpr], [if constexpr]): a failed [static_assert] and an
    evaluation that leaves the defined behaviour both mean that there is no
    program, which is [None] below. *)

(** [names<First, Rest...>::current_val], with the character class of the
    view. *)
Definition current_val (First : metastr) : option (char_class * list Z) :=
  match c_str_view (str First) with
  | Ret v => Some (char_type First, v)
  | _ => None
  end.

(** [get_name<N, Names, index_>()]; running out of names is the
    [static_assert(!is_void_v<next_name>, "index out of range")]. *)
Fixpoint get_name (N : nat) (Names : list metastr) (index_ : nat)
    : option (char_class * list Z) :=
  match Names with
  | [] => None
  | First :: Rest =>
      if (index_ =? N)%nat then current_val First
      else get_name N Rest (S index_)
  end.

(** [get_size<Names, counter>()] *)
Fixpoint get_size (Names : list metastr) (counter : nat) : nat :=
  match Names with
  | [] => counter
  | _ :: Rest =>
      match Rest with
      | [] => counter + 1
      | _ :: _ => get_size Rest (counter + 1)
      end
  end.

(** [get<str, index>(nt)], as the index that [std::get] is called with.
    [get_name<index, Names>() == str] has a [basic_string_view] on the left
    and the metastr on the right: it is the member
    [operator==(basic_string_view)] of [str] with the operands reversed.
    [fuel] bounds the chain of instantiations [index], [index + 1], ...;
    the [static_assert(index < get_size<Names>())] ends it before the fuel
    does ([get_index_fuel]). *)
Fixpoint get_index (fuel : nat) (str : metastr) (Names : list metastr)
    (index : nat) : option nat :=
  if (index <? get_size Names 0)%nat then
    match get_name index Names 0 with
    | Some (c, val) =>
        match eq_view str c val with
        | Ret true => Some index
        | Ret false =>
            match fuel with
            | O => None
            | S fuel' => get_index fuel' str Names (S index)
            end
        | _ => None
        end
    | None => None
    end
  else None.

(** [struct namedtuple<Names, Args...>] with its
    [requires (get_size<Names>() == sizeof...(Args))].  The types of the
    fields play no part in the lookup: the fields are values of one type
    [V] here. *)
Record namedtuple (V : Type) : Type :=
  { nt_names : list metastr; tuple : list V }.

Arguments nt_names {V} n.
Arguments tuple {V} n.

(** [make_namedtuple<Str...>(args...)] *)
Definition make_namedtuple {V : Type} (Str : list metastr) (args : list V)
    : option (namedtuple V) :=
  match Str with
  | [] => None
  | _ :: _ =>
      if (length Str =? length args)%nat
         && (get_size Str 0 =? length args)%nat
      then Some {| nt_names := Str; tuple := args |}
      else None
  end.

(** [get<str>(nt)]: [std::get<index>(nt.tuple)] for the index found. *)
Definition get {V : Type} (str : metastr) (nt : namedtuple V) : option V :=
  index ← get_index (get_size (nt_names nt) 0) str (nt_names nt) 0;
  tuple nt !! index.

(** [get<N>(nt)]: [std::get<N>(nt.tuple)]. *)
Definition get_at {V : Type} (N : nat) (nt : namedtuple V) : option V :=
  tuple nt !! N.

(** ** What the specification asks for

    Definitions written from the words of the specification, to set against
    the code above. *)

(** "equality holds iff the shorter's non-terminator prefix matches the
    longer's corresponding prefix AND every code unit in the longer beyond
    that prefix is zero" *)
Definition spec_equal (a b : list Z) : bool :=
  let n := (Nat.min (length a) (length b) - 1)%nat in
  let longer := if (length a <=? length b)%nat then b else a in
  bool_decide (take n a = take n b) && forallb (Z.eqb 0) (drop n longer).

(** "standard UTF-8 bit-packing (leading byte encodes the length via high
    bits 0xC0/0xE0/0xF0; continuation bytes via 0x80 with low 6 bits of
    payload)" *)
Definition spec_continuation (payload : Z) : Z := Z.lor 0x80 (Z.land payload 0x3f).

Definition spec_utf8 (c : Z) : list Z :=
  if c <? 0x80 then [c]
  else if c <? 0x800 then
    [Z.lor 0xc0 (Z.shiftr c 6); spec_continuation c]
  else if c <? 0x10000 then
    [Z.lor 0xe0 (Z.shiftr c 12); spec_continuation (Z.shiftr c 6);
     spec_continuation c]
  else
    [Z.lor 0xf0 (Z.shiftr c 18); spec_continuation (Z.shiftr c 12);
     spec_continuation (Z.shiftr c 6); spec_continuation c].

(** The scalar value of a surrogate pair. *)
Definition spec_pair_scalar (lead trail : Z) : Z :=
  0x10000 + (lead - 0xD800) * 0x400 + (trail - 0xDC00).

(** The UTF-16 form of a scalar value, and the arrays that the literals
    [u"..."] and [u8"..."] of a text (a list of scalar values) denote:
    the encoded units followed by the terminator. *)
Definition spec_utf16 (c : Z) : list Z :=
  if c <? 0x10000 then [c]
  else [0xD800 + Z.shiftr (c - 0x10000) 10; 0xDC00 + Z.land (c - 0x10000) 0x3ff].

Definition u16_literal (text : list Z) : list Z :=
  List.concat (spec_utf16 <$> text) ++ [0].

Definition u8_literal (text : list Z) : list Z :=
  List.concat (spec_utf8 <$> text) ++ [0].

(** ** Notions used in the statements *)

(** A buffer whose last slot holds the terminator. *)
Definition terminated (s : metastr) : Prop := last (str s) = Some 0.

(** The logical content of an input of [concat]: everything but the
    terminator slot. *)
Definition content (s : metastr) : list Z := take (len s - 1) (str s).

(** Where the content of the [j]-th input of [concat] starts: the sum of
    the logical lengths of the inputs before it. *)
Definition offset_of (inputs : list metastr) (j : nat) : nat :=
  sum_list ((fun s => (len s - 1)%nat) <$> take j inputs).

(** The values that the if-chain of [emit] hands to [put], in order. *)
Definition emitted (u32chr : Z) : list Z :=
  if u32chr <? 0x80 then [u32chr]
  else if u32chr <? 0x800 then
    [Z.lor (Z.shiftr u32chr 6) 0xc0; Z.lor (Z.land u32chr 0x3f) 0x80]
  else if u32chr <? 0x10000 then
    [Z.lor (Z.shiftr u32chr 12) 0xe0;
     Z.lor (Z.land (Z.shiftr u32chr 6) 0x3f) 0x80;
     Z.lor (Z.land u32chr 0x3f) 0x80]
  else
    [Z.lor (Z.shiftr u32chr 18) 0xf0;
     Z.lor (Z.land (Z.shiftr u32chr 12) 0x3f) 0x80;
     Z.land (Z.shiftr u32chr 6) 0x3f;
     Z.lor (Z.land u32chr 0x3f) 0x80].

(** How many units the if-chain of [emit] stores for a value. *)
Definition emit_count (u32chr : Z) : nat :=
  if u32chr <? 0x80 then 1
  else if u32chr <? 0x800 then 2
  else if u32chr <? 0x10000 then 3
  else 4.

(** A metastr followed by [k] more zero units, as a literal written with
    [k] extra [\0] at its end. *)
Definition pad (k : nat) (s : metastr) : metastr :=
  {| char_type := char_type s; str := str s ++ zeros k |}.

(** A Unicode scalar value: at most 0x10FFFF and not a surrogate. *)
Definition scalar_value (c : Z) : Prop :=
  0 <= c <= 0x10FFFF /\ ~ (0xD800 <= c <= 0xDFFF).

(** UTF-16 units in which every lead surrogate is followed by a trail
    surrogate and no trail surrogate stands alone. *)
Fixpoint well_paired (units : list Z) : bool :=
  match units with
  | [] => true
  | u :: units' =>
      if is_trail (Z.land u 0xffff) then false
      else if is_lead (Z.land u 0xffff) then
        match units' with
        | [] => false
        | t :: units'' => is_trail (Z.land t 0xffff) && well_paired units''
        end
      else well_paired units'
  end.

(** A name as they are written: at least one character, a zero in the
    terminator slot and none before it, every unit being a value of some
    character type. *)
Definition plain (s : metastr) : Prop :=
  exists body,
    str s = body ++ [0] /\ body <> []
    /\ Forall (fun u => u <> 0 /\ - 2 ^ 32 < u < 2 ^ 32) body.

(** The search of [get] as one pass over the names that are left, [k]
    being the index of the first of them ([get_index_scan]). *)
Fixpoint get_scan (str : metastr) (rest : list metastr) (k : nat) : option nat :=
  match rest with
  | [] => None
  | name :: rest' =>
      match current_val name with
      | Some (c, val) =>
          match eq_view str c val with
          | Ret true => Some k
          | Ret false => get_scan str rest' (S k)
          | _ => None
          end
      | None => None
      end
  end.

(** Every slot from the write index on still holds the zero it was
    initialised with. *)
Definition zero_tail (st : cursor) : Prop :=
  forall i v, (index st <= i)%nat -> res st !! i = Some v -> v = 0.

(** * Properties *)

(** ** Arrays and copies *)

Lemma std_copy_length src off dst :
  length (std_copy src off dst) = length dst.
Proof.
  revert off dst. induction src as [|x src IH]; intros off dst; simpl.
  - reflexivity.
  - rewrite IH. apply length_insert.
Qed.

Lemma std_copy_spec src off dst :
  (off + length src <= length dst)%nat ->
  std_copy src off dst = take off dst ++ src ++ drop (off + length src) dst.
Proof.
  revert off dst. induction src as [|x src IH]; intros off dst Hlen; simpl in *.
  - rewrite Nat.add_0_r. symmetry. apply take_drop.
  - rewrite IH by (rewrite length_insert; lia).
    rewrite (take_S_r _ off x) by (apply list_lookup_insert_eq; lia).
    rewrite take_insert_ge by lia.
    rewrite drop_insert_lt by lia.
    rewrite <- app_assoc. simpl.
    replace (S (off + length src)) with (off + S (length src))%nat by lia.
    reflexivity.
Qed.

Lemma mk_metastr_str c arr :
  (1 <= length arr)%nat ->
  str (mk_metastr c arr) = take (length arr - 1) arr ++ [0].
Proof.
  intros Hlen. unfold mk_metastr, zeros. simpl.
  rewrite std_copy_spec by (rewrite length_take, length_replicate; lia).
  simpl. f_equal.
  rewrite length_take, drop_replicate.
  replace (length arr - Nat.min (length arr - 1) (length arr))%nat with 1%nat by lia.
  reflexivity.
Qed.

Lemma mk_metastr_snoc c body :
  mk_metastr c (body ++ [0]) = {| char_type := c; str := body ++ [0] |}.
Proof.
  change (mk_metastr c (body ++ [0]))
    with {| char_type := c; str := str (mk_metastr c (body ++ [0])) |}.
  f_equal. rewrite mk_metastr_str by (rewrite length_app; simpl; lia).
  rewrite length_app. simpl. rewrite Nat.add_sub, take_app_length.
  reflexivity.
Qed.

Lemma mk_metastr_len c arr : len (mk_metastr c arr) = length arr.
Proof.
  unfold len, mk_metastr, zeros. simpl.
  rewrite std_copy_length. apply length_replicate.
Qed.

Lemma mk_metastr_terminated c arr :
  (1 <= length arr)%nat -> terminated (mk_metastr c arr).
Proof.
  intros Hlen. unfold terminated. rewrite mk_metastr_str by assumption.
  apply last_snoc.
Qed.

Lemma mk_metastr_zeros c n :
  str (mk_metastr c (zeros n)) = zeros n.
Proof.
  destruct n as [|n].
  - reflexivity.
  - rewrite mk_metastr_str by (unfold zeros; rewrite length_replicate; lia).
    unfold zeros. rewrite length_replicate, take_replicate.
    replace (Nat.min (S n - 1) (S n)) with n by lia.
    change [0] with (replicate 1 0). rewrite <- replicate_add.
    f_equal. lia.
Qed.

(** ** The outcome monad *)

Lemma bind_Ret {A B} (f : A -> outcome B) (a : A) : (Ret a ≫= f) = f a.
Proof. reflexivity. Qed.

Lemma bind_Abort {A B} (f : A -> outcome B) : (Abort ≫= f) = Abort.
Proof. reflexivity. Qed.

Lemma bind_Undefined {A B} (f : A -> outcome B) k :
  (Undefined k ≫= f) = Undefined k.
Proof. reflexivity. Qed.

(** ** Emission *)

Lemma put_ok P u8 v st :
  (index st < length (res st))%nat ->
  put P u8 v st =
  Ret {| res := <[index st := cast P u8 v]> (res st); index := S (index st) |}.
Proof.
  intros H. unfold put.
  destruct (Nat.ltb_spec (index st) (length (res st))); [reflexivity | lia].
Qed.

Ltac put_steps :=
  repeat (rewrite put_ok by (simpl; rewrite ?length_insert; lia);
          rewrite ?bind_Ret; simpl index; simpl res).

Lemma emit_count_le_4 u : (1 <= emit_count u <= 4)%nat.
Proof. unfold emit_count. repeat case_match; lia. Qed.

Lemma emit_count_small u : u < 0x10000 -> (emit_count u <= 3)%nat.
Proof. unfold emit_count. intros H. repeat case_match; lia. Qed.

Lemma emit_count_nul : emit_count 0 = 1%nat.
Proof. reflexivity. Qed.

Lemma emit_ok P u8 u st :
  (index st + emit_count u <= length (res st))%nat ->
  exists st',
    emit P u8 u st = Ret st'
    /\ index st' = (index st + emit_count u)%nat
    /\ length (res st') = length (res st).
Proof.
  unfold emit, emit_count. intros H.
  repeat case_match; put_steps; eexists; (split; [reflexivity |]);
    simpl; rewrite ?length_insert; split; lia.
Qed.

Lemma land_ffff_range u : 0 <= Z.land u 0xffff < 0x10000.
Proof.
  change 0xffff with (Z.ones 16). rewrite Z.land_ones by lia.
  apply Z.mod_pos_bound. lia.
Qed.

Lemma emit_cases P u8 u st :
  (exists st', emit P u8 u st = Ret st' /\ length (res st') = length (res st))
  \/ emit P u8 u st = Undefined WritePastEnd.
Proof.
  assert (Hput : forall v s,
    (exists s', put P u8 v s = Ret s' /\ length (res s') = length (res s))
    \/ put P u8 v s = Undefined WritePastEnd).
  { intros v s. unfold put. case_match; [left | right; reflexivity].
    eexists. split; [reflexivity |]. simpl. apply length_insert. }
  assert (Hseq : forall v (k : cursor -> outcome cursor) s,
    (forall s1, (exists s', k s1 = Ret s' /\ length (res s') = length (res s1))
                \/ k s1 = Undefined WritePastEnd) ->
    (exists s', (put P u8 v s ≫= k) = Ret s' /\ length (res s') = length (res s))
    \/ (put P u8 v s ≫= k) = Undefined WritePastEnd).
  { intros v k s Hk. destruct (Hput v s) as [(s1 & -> & Hl) | ->].
    - rewrite bind_Ret. destruct (Hk s1) as [(s' & -> & Hl') | ->].
      + left. eexists. split; [reflexivity | congruence].
      + right. reflexivity.
    - right. reflexivity. }
  unfold emit. repeat case_match; repeat (apply Hseq; intros); apply Hput.
Qed.

(** ** The UTF-32 loop *)

Section Utf32.
Variable P : Platform.
Variable u8 : char_class.

Lemma utf32_loop_valid checked units st :
  checked && existsb invalid_scalar units = false ->
  (index st + sum_list (emit_count <$> units) <= length (res st))%nat ->
  exists st',
    utf32_loop P checked u8 units st = Ret st'
    /\ index st' = (index st + sum_list (emit_count <$> units))%nat
    /\ length (res st') = length (res st).
Proof.
  revert st. induction units as [|u units IH]; intros st Hv Hroom; simpl in *.
  - exists st. repeat split. lia.
  - assert (checked && invalid_scalar u = false
            /\ checked && existsb invalid_scalar units = false) as [Hu Hrest].
    { destruct checked; simpl in *; [apply orb_false_elim in Hv |]; auto. }
    rewrite Hu.
    change (list_fmap Z nat emit_count units) with (emit_count <$> units) in *.
    destruct (emit_ok P u8 u st) as (st1 & -> & Hi & Hl); [lia |].
    rewrite bind_Ret.
    destruct (IH st1 Hrest) as (st' & -> & Hi' & Hl'); [lia |].
    exists st'. repeat split; [lia | congruence].
Qed.

Lemma utf32_loop_abort units st :
  existsb invalid_scalar units = true ->
  (index st + 4 * (length units - 1) <= length (res st))%nat ->
  utf32_loop P true u8 units st = Abort.
Proof.
  revert st. induction units as [|u units IH]; intros st Hex Hroom; simpl in *.
  - discriminate.
  - destruct (invalid_scalar u) eqn:Hu; [reflexivity |]. simpl in Hex.
    assert (1 <= length units)%nat by (destruct units; simpl in *; [discriminate | lia]).
    pose proof (emit_count_le_4 u).
    destruct (emit_ok P u8 u st) as (st1 & -> & Hi & Hl); [lia |].
    rewrite bind_Ret. apply IH; [assumption | lia].
Qed.

End Utf32.

(** ** The UTF-16 loop *)

(** Induction that follows the loop: it takes one unit or two. *)
Lemma list_pair_ind (Q : list Z -> Prop) :
  Q [] ->
  (forall x, Q [x]) ->
  (forall x y l, Q l -> Q (y :: l) -> Q (x :: y :: l)) ->
  forall l, Q l.
Proof.
  intros H0 H1 H2 l.
  assert (Q l /\ forall x, Q (x :: l)) as [H _]; [| exact H].
  induction l as [|y l [IHl IHy]]; split; auto.
Qed.

Lemma lead_not_trail u : is_lead u = true -> is_trail u = false.
Proof.
  unfold is_lead, is_trail, LEAD_SURROGATE_MIN, LEAD_SURROGATE_MAX,
    TRAIL_SURROGATE_MIN, TRAIL_SURROGATE_MAX.
  intros H. apply andb_true_iff in H as [H1 H2].
  apply andb_false_iff. left. lia.
Qed.

Section Utf16.
Variable P : Platform.
Variable u8 : char_class.

Lemma utf16_loop_terminated checked units :
  forall st,
  last units = Some 0 ->
  (index st + (3 * length units - 2) <= length (res st))%nat ->
  (checked = true /\ utf16_loop P checked u8 units st = Abort)
  \/ exists st',
       utf16_loop P checked u8 units st = Ret st'
       /\ (index st' <= index st + (3 * length units - 2))%nat
       /\ length (res st') = length (res st).
Proof.
  induction units as [| x | x y l IHl IHy] using list_pair_ind;
    intros st Hlast Hroom.
  - discriminate.
  - injection Hlast as ->. right. simpl length in *.
    cbn [utf16_loop]. change (Z.land 0 0xffff) with 0.
    change (is_trail 0) with false. change (is_lead 0) with false.
    rewrite andb_false_r.
    destruct (emit_ok P u8 0 st) as (st1 & -> & Hi & Hl);
      [rewrite emit_count_nul; lia |].
    rewrite bind_Ret, emit_count_nul in *.
    exists st1. repeat split; [lia | assumption].
  - rewrite last_cons_cons in Hlast.
    cbn [utf16_loop].
    destruct (checked && is_trail (Z.land x 0xffff)) eqn:Ht.
    { left. apply andb_true_iff in Ht as [-> _]. split; reflexivity. }
    destruct (is_lead (Z.land x 0xffff)) eqn:Hld.
    + destruct (checked && negb (is_trail (Z.land y 0xffff))) eqn:Ht2.
      { left. apply andb_true_iff in Ht2 as [-> _]. split; reflexivity. }
      set (c := wrap32 _).
      pose proof (emit_count_le_4 c).
      simpl length in *.
      destruct (emit_ok P u8 c st) as (st1 & -> & Hi & Hl); [lia |].
      rewrite bind_Ret.
      destruct l as [|z l].
      * right. exists st1. simpl. repeat split; [lia | assumption].
      * destruct (IHl st1) as [[Hc Ha] | (st' & He' & Hi' & Hl')];
          [assumption | simpl length in *; lia | left; auto |].
        right. exists st'. simpl length in *. repeat split; [assumption | lia | congruence].
    + pose proof (emit_count_small (Z.land x 0xffff)
                    (proj2 (land_ffff_range x))).
      simpl length in *.
      destruct (emit_ok P u8 (Z.land x 0xffff) st) as (st1 & -> & Hi & Hl); [lia |].
      rewrite bind_Ret.
      destruct (IHy st1) as [[Hc Ha] | (st' & He' & Hi' & Hl')];
        [assumption | simpl length in *; lia | left; auto |].
      right. exists st'. simpl length in *. repeat split; [assumption | lia | congruence].
Qed.

Lemma utf16_loop_lead_last units :
  forall st l,
  last units = Some l ->
  is_lead (Z.land l 0xffff) = true ->
  (index st + 3 * (length units - 1) <= length (res st))%nat ->
  utf16_loop P true u8 units st = Abort.
Proof.
  induction units as [| x | x y u IHl IHy] using list_pair_ind;
    intros st l Hlast Hlead Hroom.
  - discriminate.
  - injection Hlast as ->. simpl.
    rewrite (lead_not_trail _ Hlead), Hlead. reflexivity.
  - rewrite last_cons_cons in Hlast.
    cbn [utf16_loop andb].
    destruct (is_trail (Z.land x 0xffff)); [reflexivity |].
    destruct (is_lead (Z.land x 0xffff)) eqn:Hld.
    + destruct (is_trail (Z.land y 0xffff)) eqn:Hty; [| reflexivity].
      cbn [negb].
      destruct u as [|z u].
      { injection Hlast as ->.
        rewrite (lead_not_trail _ Hlead) in Hty. discriminate. }
      set (c := wrap32 _).
      pose proof (emit_count_le_4 c).
      simpl length in *.
      destruct (emit_ok P u8 c st) as (st1 & -> & Hi & Hl); [lia |].
      rewrite bind_Ret.
      apply (IHl st1 l); [assumption | assumption | simpl length in *; lia].
    + pose proof (emit_count_small (Z.land x 0xffff)
                    (proj2 (land_ffff_range x))).
      simpl length in *.
      destruct (emit_ok P u8 (Z.land x 0xffff) st) as (st1 & -> & Hi & Hl); [lia |].
      rewrite bind_Ret.
      apply (IHy st1 l); [assumption | assumption | simpl length in *; lia].
Qed.

Lemma utf16_loop_checked_reads_inside units :
  forall st, utf16_loop P true u8 units st <> Undefined ReadPastEnd.
Proof.
  induction units as [| x | x y l IHl IHy] using list_pair_ind; intros st.
  - discriminate.
  - simpl. repeat case_match; try discriminate.
    destruct (emit_cases P u8 (Z.land x 0xffff) st) as [(s' & -> & _) | ->];
      discriminate.
  - cbn [utf16_loop andb].
    destruct (is_trail (Z.land x 0xffff)); [discriminate |].
    destruct (is_lead (Z.land x 0xffff)).
    + destruct (is_trail (Z.land y 0xffff)); [| discriminate].
      cbn [negb].
      match goal with |- (emit _ _ ?c _ ≫= _) <> _ =>
        destruct (emit_cases P u8 c st) as [(s' & -> & _) | ->] end;
        [rewrite bind_Ret; apply IHl | discriminate].
    + destruct (emit_cases P u8 (Z.land x 0xffff) st) as [(s' & -> & _) | ->];
        [rewrite bind_Ret; apply IHy | discriminate].
Qed.

End Utf16.

(** ** The transcoders *)

Lemma sum_emit_count_le units :
  (sum_list (emit_count <$> units) <= 4 * length units)%nat.
Proof.
  induction units as [|u units IH]; simpl; [lia |].
  pose proof (emit_count_le_4 u).
  change (list_fmap Z nat emit_count units) with (emit_count <$> units). lia.
Qed.

Lemma start_buffer_length c n : length (str (mk_metastr c (zeros n))) = n.
Proof. rewrite mk_metastr_zeros. apply length_replicate. Qed.

Lemma terminated_split s :
  terminated s -> exists body, str s = body ++ [0] /\ len s = S (length body).
Proof.
  unfold terminated, len. intros H. apply last_Some in H as [body ->].
  exists body. split; [reflexivity |]. rewrite length_app. simpl. lia.
Qed.

Lemma utf32_run_terminated P checked u8 s :
  terminated s ->
  (checked = true /\ utf32_run P checked u8 s = Abort)
  \/ exists st,
       utf32_run P checked u8 s = Ret st
       /\ (index st <= 4 * len s - 3)%nat
       /\ length (res st) = (4 * len s - 3)%nat.
Proof.
  intros Hterm. destruct (terminated_split s Hterm) as (body & Hstr & Hlen).
  unfold utf32_run.
  set (st0 := {| res := _; index := 0 |}).
  assert (Hcap : length (res st0) = (4 * len s - 3)%nat).
  { subst st0. cbn [res index]. rewrite start_buffer_length. lia. }
  destruct (checked && existsb invalid_scalar (str s)) eqn:Hv.
  - left. apply andb_true_iff in Hv as [-> Hex]. split; [reflexivity |].
    apply utf32_loop_abort; [assumption |].
    rewrite Hcap. subst st0. cbn [res index]. fold (len s). lia.
  - right.
    assert (Hsum : (sum_list (emit_count <$> str s) <= 4 * len s - 3)%nat).
    { rewrite Hstr, fmap_app, sum_list_with_app, Hlen.
      pose proof (sum_emit_count_le body).
      change (sum_list (emit_count <$> [0])) with 1%nat. lia. }
    destruct (utf32_loop_valid P u8 checked (str s) st0 Hv) as (st & He & Hi & Hl).
    { rewrite Hcap. subst st0. cbn [res index]. lia. }
    exists st. split; [exact He |]. split; [| congruence].
    rewrite Hi. subst st0. cbn [res index]. lia.
Qed.

Lemma utf16_run_terminated P checked u8 s :
  terminated s ->
  (checked = true /\ utf16_run P checked u8 s = Abort)
  \/ exists st,
       utf16_run P checked u8 s = Ret st
       /\ (index st <= 4 * len s - 3)%nat
       /\ length (res st) = (4 * len s - 3)%nat.
Proof.
  intros Hterm. destruct (terminated_split s Hterm) as (body & Hstr & Hlen).
  unfold utf16_run.
  set (st0 := {| res := _; index := 0 |}).
  assert (Hcap : length (res st0) = (4 * len s - 3)%nat).
  { subst st0. cbn [res index]. apply start_buffer_length. }
  destruct (utf16_loop_terminated P u8 checked (str s) st0 Hterm)
    as [[Hc Ha] | (st & He & Hi & Hl)].
  - rewrite Hcap. subst st0. cbn [res index]. fold (len s). lia.
  - left. auto.
  - right. exists st. split; [exact He |]. split; [| congruence].
    revert Hi. subst st0. cbn [res index]. fold (len s). lia.
Qed.

Lemma invalid_scalar_of_range P c u :
  is_utf32 P c = true ->
  in_range P c u ->
  (0xD800 <= u <= 0xDFFF \/ 0x10FFFF < u) ->
  invalid_scalar u = true.
Proof.
  intros Hc Hr Hbad.
  assert (Hlt : u < 2 ^ 32).
  { unfold in_range in Hr.
    destruct c, P as [cs [|]]; simpl in *; try discriminate; lia. }
  unfold invalid_scalar, wrap32, CODE_POINT_MAX, LEAD_SURROGATE_MIN,
    TRAIL_SURROGATE_MAX.
  destruct Hbad as [[H1 H2] | H].
  - apply orb_true_iff. right. apply andb_true_iff. split; lia.
  - apply orb_true_iff. left. rewrite Z.mod_small by lia. lia.
Qed.

Lemma code_cvt_utf32 P checked Char_r s :
  is_utf32 P (char_type s) = true ->
  is_utf8 Char_r = true ->
  code_cvt P checked Char_r s = Some (utf32to8 P checked Char_r s).
Proof.
  intros H32 H8. unfold code_cvt.
  destruct (char_type s), Char_r, P as [cs [|]]; simpl in *;
    try discriminate; reflexivity.
Qed.

Lemma code_cvt_utf16 P checked Char_r s :
  is_utf16 P (char_type s) = true ->
  is_utf8 Char_r = true ->
  code_cvt P checked Char_r s = Some (utf16to8 P checked Char_r s).
Proof.
  intros H16 H8. unfold code_cvt.
  destruct (char_type s), Char_r, P as [cs [|]]; simpl in *;
    try discriminate; reflexivity.
Qed.

(** C4: in checked mode, converting a UTF-32 metastring that holds a code
    unit in the surrogate range 0xD800-0xDFFF, or a code unit above
    0x10FFFF, ends in [terminate()]: the conversion is [Abort], which
    carries no metastr, no error value and no partial buffer. *)
Theorem checked_utf32_invalid_unit_aborts P Char_r s u :
  is_utf32 P (char_type s) = true ->
  is_utf8 Char_r = true ->
  In u (str s) ->
  in_range P (char_type s) u ->
  (0xD800 <= u <= 0xDFFF \/ 0x10FFFF < u) ->
  code_cvt P true Char_r s = Some Abort.
Proof.
  intros H32 H8 Hin Hr Hbad.
  rewrite code_cvt_utf32 by assumption. f_equal.
  unfold utf32to8, utf32_run.
  rewrite utf32_loop_abort; [reflexivity | |].
  - apply existsb_exists. exists u. split; [assumption |].
    eapply invalid_scalar_of_range; eassumption.
  - cbn [res index]. rewrite start_buffer_length. fold (len s).
    assert (1 <= len s)%nat by (unfold len; destruct (str s); simpl in *; [tauto | lia]).
    lia.
Qed.

Lemma checked_utf32_invalid_unit_aborts_witness :
  code_cvt linux true Char8 (mk_metastr Char32 [0x61; 0xD800; 0]) = Some Abort.
Proof.
  apply (checked_utf32_invalid_unit_aborts linux Char8
           (mk_metastr Char32 [0x61; 0xD800; 0]) 0xD800).
  - reflexivity.
  - reflexivity.
  - simpl. right. left. reflexivity.
  - unfold in_range. simpl. lia.
  - left. lia.
Defined.

(** C10: for an input of declared length N whose terminator slot is zero,
    neither transcoder stores outside its buffer of 4N-3 units: the run
    either aborts (checked mode) or ends with a write index of at most
    4N-3, so every store went to an index of at most 4N-4. *)
Theorem transcoders_write_inside P checked u8_type s :
  terminated s ->
  ((checked = true /\ utf32_run P checked u8_type s = Abort)
   \/ exists st,
        utf32_run P checked u8_type s = Ret st
        /\ (index st <= 4 * len s - 3)%nat
        /\ length (res st) = (4 * len s - 3)%nat)
  /\
  ((checked = true /\ utf16_run P checked u8_type s = Abort)
   \/ exists st,
        utf16_run P checked u8_type s = Ret st
        /\ (index st <= 4 * len s - 3)%nat
        /\ length (res st) = (4 * len s - 3)%nat).
Proof.
  intros Hterm. split.
  - apply utf32_run_terminated. assumption.
  - apply utf16_run_terminated. assumption.
Qed.

Lemma transcoders_write_inside_witness :
  terminated (mk_metastr Char32 [0x1F600; 0x1F600; 0])
  /\ (exists st,
        utf32_run linux false Char8 (mk_metastr Char32 [0x1F600; 0x1F600; 0]) = Ret st
        /\ (index st <= 9)%nat /\ length (res st) = 9%nat)
  /\ (exists st,
        utf16_run linux false Char8 (mk_metastr Char16 [0xD83D; 0xDE00; 0]) = Ret st
        /\ (index st <= 9)%nat /\ length (res st) = 9%nat).
Proof.
  split; [reflexivity |]. split.
  - destruct (transcoders_write_inside linux false Char8
                (mk_metastr Char32 [0x1F600; 0x1F600; 0]) eq_refl)
      as [[[Hc _] | H] _].
    + discriminate Hc.
    + exact H.
  - destruct (transcoders_write_inside linux false Char8
                (mk_metastr Char16 [0xD83D; 0xDE00; 0]) eq_refl)
      as [_ [[Hc _] | H]].
    + discriminate Hc.
    + exact H.
Defined.

(** ** Conversions between classes *)

Lemma cast_0 P c : cast P c 0 = 0.
Proof. unfold cast. destruct c, P as [[|] [|]]; reflexivity. Qed.

Ltac pow2 :=
  change (2 ^ (8 - 1)) with 128 in *;
  change (2 ^ (16 - 1)) with 32768 in *;
  change (2 ^ (32 - 1)) with 2147483648 in *;
  change (2 ^ 8) with 256 in *;
  change (2 ^ 16) with 65536 in *;
  change (2 ^ 32) with 4294967296 in *.

Lemma cast_in_range P c v : in_range P c v -> cast P c v = v.
Proof.
  unfold in_range, cast.
  destruct c, P as [[|] [|]]; simpl; intros H; pow2;
    solve [ apply Z.mod_small; lia
          | change (256 / 2) with 128; rewrite Z.mod_small by lia; lia
          | change (4294967296 / 2) with 2147483648;
            rewrite Z.mod_small by lia; lia ].
Qed.

(** The conversion keeps the bits of the unit: the value modulo 2^bits. *)
Lemma cast_same_bits P c v : cast P c v mod 2 ^ bits P c = v mod 2 ^ bits P c.
Proof.
  unfold cast. destruct (is_signed P c).
  - assert (Hm : 0 < 2 ^ bits P c) by (destruct c, P as [? [|]]; reflexivity).
    assert (Hh : 2 ^ bits P c = 2 * (2 ^ bits P c / 2))
      by (destruct c, P as [? [|]]; reflexivity).
    set (m := 2 ^ bits P c) in *. set (h := m / 2) in *.
    rewrite Zminus_mod_idemp_l.
    f_equal. lia.
  - apply Z.mod_mod. destruct c, P as [? [|]]; discriminate.
Qed.

Lemma code_cvt_same_family P checked Char_r s :
  (1 <= len s)%nat ->
  is_utf8 (char_type s) && is_utf8 Char_r
  || is_utf16 P (char_type s) && is_utf16 P Char_r
  || is_utf32 P (char_type s) && is_utf32 P Char_r = true ->
  code_cvt P checked Char_r s =
  Some (Ret {| char_type := Char_r;
               str := (cast P Char_r <$> content s) ++ [0] |}).
Proof.
  intros Hlen Hfam. unfold code_cvt. rewrite Hfam. do 2 f_equal.
  assert (Hc : length (cast P Char_r <$> take (len s - 1) (str s)) = (len s - 1)%nat).
  { rewrite length_fmap, length_take. fold (len s). lia. }
  assert (Htmp : std_copy (cast P Char_r <$> take (len s - 1) (str s)) 0
                   (zeros (len s))
                 = (cast P Char_r <$> content s) ++ [0]).
  { rewrite std_copy_spec by (unfold zeros; rewrite length_replicate; lia).
    simpl. unfold content. f_equal. rewrite Hc. unfold zeros.
    rewrite drop_replicate. replace (len s - (len s - 1))%nat with 1%nat by lia.
    reflexivity. }
  rewrite Htmp. apply mk_metastr_snoc.
Qed.

(** C8: a UTF-32-to-UTF-8 or UTF-16-to-UTF-8 conversion of an input of
    declared length N yields a metastr of declared length 4N-3 whatever the
    units are (or, in checked mode, aborts); a conversion inside one family
    always yields a metastr of the same length N whose units are those of
    the input, one for one, each converted to the target class (the same
    bits, and the same value when the target class can hold it). *)
Theorem code_cvt_capacity P checked Char_r s :
  terminated s ->
  (is_utf8 Char_r = true ->
   is_utf32 P (char_type s) || is_utf16 P (char_type s) = true ->
   (checked = true /\ code_cvt P checked Char_r s = Some Abort)
   \/ exists r,
        code_cvt P checked Char_r s = Some (Ret r)
        /\ char_type r = Char_r
        /\ len r = (4 * len s - 3)%nat)
  /\
  (is_utf8 (char_type s) && is_utf8 Char_r
   || is_utf16 P (char_type s) && is_utf16 P Char_r
   || is_utf32 P (char_type s) && is_utf32 P Char_r = true ->
   exists r,
     code_cvt P checked Char_r s = Some (Ret r)
     /\ char_type r = Char_r
     /\ len r = len s
     /\ str r = (cast P Char_r <$> str s)
     /\ (Forall (in_range P Char_r) (str s) -> str r = str s)).
Proof.
  intros Hterm. split.
  - intros H8 Hsrc. apply orb_true_iff in Hsrc as [H32 | H16].
    + rewrite code_cvt_utf32 by assumption. unfold utf32to8.
      destruct (utf32_run_terminated P checked Char_r s Hterm)
        as [[Hc ->] | (st & -> & _ & Hl)].
      * left. split; [assumption | reflexivity].
      * right. eexists. rewrite bind_Ret. split; [reflexivity |].
        split; [reflexivity | exact Hl].
    + rewrite code_cvt_utf16 by assumption. unfold utf16to8.
      destruct (utf16_run_terminated P checked Char_r s Hterm)
        as [[Hc ->] | (st & -> & _ & Hl)].
      * left. split; [assumption | reflexivity].
      * right. eexists. rewrite bind_Ret. split; [reflexivity |].
        split; [reflexivity | exact Hl].
  - intros Hfam.
    destruct (terminated_split s Hterm) as (body & Hstr & Hlen).
    assert (Hcopy : (cast P Char_r <$> content s) ++ [0] = cast P Char_r <$> str s).
    { unfold content. rewrite Hlen, Hstr, fmap_app. simpl.
      rewrite Nat.sub_0_r, take_app_length, cast_0. reflexivity. }
    eexists. split; [apply code_cvt_same_family; [lia | assumption] |].
    cbn [char_type str]. rewrite Hcopy.
    split; [reflexivity |]. split; [unfold len; cbn [str]; apply length_fmap |].
    split; [reflexivity |].
    intros Hall. clear - Hall. induction Hall as [|v l Hv _ IH]; simpl.
    + reflexivity.
    + rewrite (cast_in_range _ _ _ Hv). f_equal. exact IH.
Qed.

Lemma code_cvt_capacity_witness :
  terminated (mk_metastr Char32 [0x6D4B; 0x901D; 0])
  /\ (exists r,
        code_cvt linux false Char8 (mk_metastr Char32 [0x6D4B; 0x901D; 0])
        = Some (Ret r)
        /\ char_type r = Char8 /\ len r = 9%nat)
  /\ (exists r,
        code_cvt linux false WChar (mk_metastr Char32 [0x6D4B; 0x901D; 0])
        = Some (Ret r)
        /\ char_type r = WChar /\ len r = 3%nat
        /\ str r = (cast linux WChar <$> [0x6D4B; 0x901D; 0])
        /\ (Forall (in_range linux WChar) [0x6D4B; 0x901D; 0] ->
            str r = [0x6D4B; 0x901D; 0])).
Proof.
  split; [reflexivity |]. split.
  - destruct (code_cvt_capacity linux false Char8
                (mk_metastr Char32 [0x6D4B; 0x901D; 0]) eq_refl) as [H _].
    destruct (H eq_refl eq_refl) as [[Hc _] | Hr].
    + discriminate Hc.
    + exact Hr.
  - destruct (code_cvt_capacity linux false WChar
                (mk_metastr Char32 [0x6D4B; 0x901D; 0]) eq_refl) as [_ H].
    exact (H eq_refl).
Defined.

Lemma utf16to8_checked_reads_inside P u8 s :
  utf16to8 P true u8 s <> Undefined ReadPastEnd.
Proof.
  unfold utf16to8, utf16_run. intros H.
  match type of H with (?m ≫= _) = _ => destruct m as [st | | k] eqn:Hm end.
  - discriminate H.
  - discriminate H.
  - rewrite bind_Undefined in H. injection H as ->.
    exact (utf16_loop_checked_reads_inside P u8 _ _ Hm).
Qed.

(** C9 as stated fails: with the checks compiled in, no input makes the
    UTF-16 decoder read past the end of its array. *)
Lemma checked_utf16_never_reads_past_end :
  ~ exists P u8_type s, utf16to8 P true u8_type s = Undefined ReadPastEnd.
Proof.
  intros (P & u8 & s & H). exact (utf16to8_checked_reads_inside P u8 s H).
Qed.

(** C9, amended: in checked mode the UTF-16 decoder never reads past the
    end of its input, and an input whose final code unit is a lead
    surrogate makes the conversion abort: [i >= N] is tested before the
    next unit is read.  The read past the end for a lead surrogate in the
    final position belongs to unchecked mode only. *)
Theorem checked_utf16_final_lead_aborts P u8_type s l :
  last (str s) = Some l ->
  is_lead (Z.land l 0xffff) = true ->
  utf16to8 P true u8_type s = Abort
  /\ (forall s', utf16to8 P true u8_type s' <> Undefined ReadPastEnd)
  /\ utf16to8 P false u8_type {| char_type := Char16; str := [0xD800] |}
     = Undefined ReadPastEnd.
Proof.
  intros Hlast Hlead.
  split; [| split; [apply utf16to8_checked_reads_inside | reflexivity]].
  unfold utf16to8, utf16_run.
  rewrite (utf16_loop_lead_last P u8_type (str s) _ l Hlast Hlead);
    [reflexivity |].
  cbn [res index]. rewrite start_buffer_length. fold (len s). lia.
Qed.

Lemma checked_utf16_final_lead_aborts_witness :
  utf16to8 linux true Char8 {| char_type := Char16; str := [0x61; 0xD83D] |}
  = Abort
  /\ utf16to8 linux false Char8 {| char_type := Char16; str := [0xD800] |}
     = Undefined ReadPastEnd.
Proof.
  destruct (checked_utf16_final_lead_aborts linux Char8
              {| char_type := Char16; str := [0x61; 0xD83D] |} 0xD83D
              eq_refl eq_refl) as (Ha & _ & Hu).
  split; [exact Ha | exact Hu].
Defined.

(** ** Concatenation *)

Lemma content_length s : length (content s) = (len s - 1)%nat.
Proof. unfold content. rewrite length_take. fold (len s). lia. Qed.

Lemma nth_of_drop (lens : list nat) i prev rest :
  drop i lens = prev :: rest -> nth i lens 0%nat = prev.
Proof.
  intros H. rewrite nth_lookup.
  replace (lens !! i) with (drop i lens !! 0%nat)
    by (rewrite lookup_drop; f_equal; lia).
  rewrite H. reflexivity.
Qed.

(** The fold over [strs]: with [W] written so far and [k] zero slots left,
    each input lands right after [W]. *)
Lemma concat_fold lens todo :
  forall st W prev k,
  drop (c_index st) lens = prev :: ((fun s => (len s - 1)%nat) <$> todo) ->
  (c_offset st + prev)%nat = length W ->
  c_buf st = W ++ zeros k ->
  (length (List.concat (content <$> todo)) <= k)%nat ->
  c_buf (fold_left (concat_step lens) todo st)
  = W ++ List.concat (content <$> todo)
      ++ zeros (k - length (List.concat (content <$> todo))).
Proof.
  induction todo as [|s todo IH]; intros st W prev k Hdrop Hoff Hbuf Hk.
  - simpl. rewrite Nat.sub_0_r. exact Hbuf.
  - rewrite fmap_cons in Hk. simpl List.concat in Hk.
    rewrite length_app, content_length in Hk.
    cbn [fold_left].
    rewrite (IH (concat_step lens st s) (W ++ content s) (len s - 1)%nat
               (k - (len s - 1))%nat).
    + rewrite fmap_cons. simpl List.concat.
      rewrite <- !app_assoc, length_app, content_length.
      do 4 f_equal. lia.
    + unfold concat_step. cbn [c_index].
      change (S (c_index st)) with (1 + c_index st)%nat.
      rewrite Nat.add_comm, <- drop_drop, Hdrop. reflexivity.
    + unfold concat_step. cbn [c_offset].
      rewrite (nth_of_drop _ _ _ _ Hdrop), length_app, content_length. lia.
    + unfold concat_step. cbn [c_buf].
      rewrite (nth_of_drop _ _ _ _ Hdrop), Hoff, Hbuf.
      fold (content s).
      rewrite std_copy_spec
        by (rewrite length_app, content_length; unfold zeros;
            rewrite length_replicate; lia).
      rewrite take_app_length, drop_app_add', content_length by reflexivity.
      unfold zeros. rewrite drop_replicate, <- app_assoc. reflexivity.
    + lia.
Qed.

Lemma sum_len_minus strs :
  Forall (fun s => (1 <= len s)%nat) strs ->
  sum_list (len <$> strs)
  = (length (List.concat (content <$> strs)) + length strs)%nat.
Proof.
  induction 1 as [|s strs Hs _ IH]; [reflexivity |].
  rewrite !fmap_cons. simpl. rewrite length_app, content_length.
  change (list_fmap metastr nat len strs) with (len <$> strs). lia.
Qed.

(** What the code computes for two or more inputs of one class. *)
Lemma concat_spec str1 strs :
  strs <> [] ->
  (1 <= len str1)%nat ->
  Forall (fun s => (1 <= len s)%nat) strs ->
  Forall (fun s => char_type str1 = char_type s) strs ->
  concat str1 strs
  = Some {| char_type := char_type str1;
            str := content str1 ++ List.concat (content <$> strs) ++ [0] |}.
Proof.
  intros Hne H1 Hlens Hcls. unfold concat.
  destruct strs as [|s0 strs0] eqn:E; [congruence |]. rewrite <- E in *.
  assert (Hall : forallb (fun s => bool_decide (char_type str1 = char_type s)) strs
                 = true).
  { apply forallb_forall. intros s Hs. apply bool_decide_eq_true.
    rewrite Forall_forall in Hcls. apply Hcls. apply list_elem_of_In. exact Hs. }
  rewrite Hall. do 2 f_equal.
  set (total := length (List.concat (content <$> strs))).
  assert (Hcap : (len str1 + sum_list (len <$> strs) - length strs
                  = (len str1 - 1) + (total + 1))%nat).
  { rewrite sum_len_minus by assumption. subst total. lia. }
  rewrite Hcap, mk_metastr_zeros.
  erewrite (concat_fold _ strs _ (content str1) (len str1 - 1)%nat (total + 1)%nat).
  - subst total. do 2 f_equal.
    replace (_ + 1 - _)%nat with 1%nat by lia. reflexivity.
  - reflexivity.
  - cbn [c_offset]. rewrite content_length. reflexivity.
  - cbn [c_buf]. fold (content str1).
    rewrite std_copy_spec
      by (rewrite content_length; unfold zeros; rewrite length_replicate; lia).
    rewrite take_0, app_nil_l, Nat.add_0_l, content_length. unfold zeros.
    rewrite drop_replicate. do 2 f_equal. lia.
  - subst total. lia.
Qed.

Lemma concat_content_length inputs :
  length (List.concat (content <$> inputs))
  = sum_list ((fun s => (len s - 1)%nat) <$> inputs).
Proof.
  induction inputs as [|a inputs IH]; [reflexivity |].
  rewrite !fmap_cons. simpl. rewrite length_app, content_length, IH.
  reflexivity.
Qed.

Lemma concat_content_lookup inputs :
  forall j s i u,
  inputs !! j = Some s ->
  (i < len s - 1)%nat ->
  str s !! i = Some u ->
  List.concat (content <$> inputs) !! (offset_of inputs j + i)%nat = Some u.
Proof.
  induction inputs as [|a inputs IH]; intros j s i u Hj Hi Hu.
  - destruct j; discriminate.
  - rewrite fmap_cons. simpl List.concat. destruct j as [|j].
    + injection Hj as ->. unfold offset_of. simpl.
      rewrite lookup_app_l by (rewrite content_length; lia).
      unfold content. rewrite lookup_take_lt by lia. exact Hu.
    + unfold offset_of. rewrite firstn_cons, fmap_cons. simpl sum_list_with.
      fold (offset_of inputs j).
      rewrite lookup_app_r by (rewrite content_length; unfold id; lia).
      rewrite content_length.
      unfold id.
      replace (len a - 1 + offset_of inputs j + i - (len a - 1))%nat
        with (offset_of inputs j + i)%nat by lia.
      eapply IH; eassumption.
Qed.

(** With two or more metastrings of one character class, [concat] yields a
    metastr whose declared length is the sum of the (length_i - 1) plus 1,
    that holds the first length_i - 1 units of input [j] from the offset
    given by the sum of the logical lengths of the inputs before it, left to
    right, and whose last slot is zero; raw literals are first wrapped as
    metastrs, and concat(metastr("abc"), metastr("def")) is "abcdef" with
    length 7. *)
Lemma concat_layout str1 strs :
  strs <> [] ->
  Forall (fun s => (1 <= len s)%nat) (str1 :: strs) ->
  Forall (fun s => char_type str1 = char_type s) strs ->
  (exists r,
     concat str1 strs = Some r
     /\ (forall args,
           wrap_arg <$> args = str1 :: strs -> concat_args args = Some r)
     /\ char_type r = char_type str1
     /\ len r = (sum_list ((fun s => (len s - 1)%nat) <$> (str1 :: strs)) + 1)%nat
     /\ (forall j s i u,
           (str1 :: strs) !! j = Some s ->
           (i < len s - 1)%nat ->
           str s !! i = Some u ->
           str r !! (offset_of (str1 :: strs) j + i)%nat = Some u)
     /\ str r !! (len r - 1)%nat = Some 0)
  /\ concat (mk_metastr Char (lit "abc")) [mk_metastr Char (lit "def")]
     = Some (mk_metastr Char (lit "abcdef"))
  /\ len (mk_metastr Char (lit "abcdef")) = 7%nat.
Proof.
  intros Hne Hlens Hcls. split; [| split; reflexivity].
  apply Forall_cons in Hlens as [H1 Hlens].
  eexists. split; [apply concat_spec; assumption |].
  set (body := List.concat (content <$> str1 :: strs)).
  assert (Hstr : content str1 ++ List.concat (content <$> strs) ++ [0]
                 = body ++ [0]).
  { subst body. rewrite fmap_cons. simpl. rewrite <- app_assoc. reflexivity. }
  assert (Hbody : length body
                  = sum_list ((fun s => (len s - 1)%nat) <$> str1 :: strs))
    by apply concat_content_length.
  unfold len at 1 2. cbn [char_type str]. rewrite Hstr.
  rewrite length_app, Hbody. simpl length.
  split; [intros args Hw; unfold concat_args; rewrite Hw;
          rewrite <- Hstr; apply concat_spec; assumption |].
  split; [reflexivity |]. split; [reflexivity |]. split.
  - intros j s i u Hj Hi Hu.
    apply lookup_app_l_Some. eapply concat_content_lookup; eassumption.
  - unfold len. cbn [str]. rewrite length_app. simpl length.
    rewrite Nat.add_sub, lookup_app_r by lia.
    rewrite Nat.sub_diag. reflexivity.
Qed.

Lemma concat_layout_witness :
  exists r,
    concat (mk_metastr Char8 [0x61; 0x62; 0]) [mk_metastr Char8 [0x63; 0]] = Some r
    /\ len r = 4%nat
    /\ str r !! 2%nat = Some 0x63
    /\ str r !! 3%nat = Some 0.
Proof.
  destruct (concat_layout (mk_metastr Char8 [0x61; 0x62; 0])
              [mk_metastr Char8 [0x63; 0]])
    as [(r & Hr & _ & _ & Hlen & Hat & Hlast) _].
  - discriminate.
  - repeat constructor.
  - repeat constructor.
  - exists r. split; [exact Hr |]. split; [exact Hlen |]. split.
    + exact (Hat 1%nat (mk_metastr Char8 [0x63; 0]) 0%nat 0x63
               eq_refl (le_n 1) eq_refl).
    + rewrite Hlen in Hlast. exact Hlast.
Defined.

(** C5, at a single input: the signature of [concat] and its
    requires-clause accept one metastr (an empty pack [Strs]), for which the
    claim's layout is a copy of the input, of declared length
    (length - 1) + 1.  The size of the result array is written with a unary
    fold over [Strs], which has no value for the empty pack, so the call
    concat(metastr("abc")) is ill-formed and yields no metastr, as is the
    call with the raw literal; with a second, empty input the same text is
    produced with declared length 4. *)
Theorem concat_single_input_yields_nothing :
  concat (mk_metastr Char (lit "abc")) [] = None
  /\ concat_args [a_metastr (mk_metastr Char (lit "abc"))] = None
  /\ concat_args [a_c_str Char (lit "abc")] = None
  /\ concat (mk_metastr Char (lit "abc")) [mk_metastr Char (lit "")]
     = Some (mk_metastr Char (lit "abc"))
  /\ len (mk_metastr Char (lit "abc")) = 4%nat.
Proof. repeat split; reflexivity. Qed.

(** C6: for metastrings A, B, C of one character class, concat(A, B, C) is
    the very metastr that concat(concat(A, B), C) is, and
    length(concat(A, B)) - 1 = (length(A) - 1) + (length(B) - 1). *)
Theorem concat_assoc_additive A B C :
  (1 <= len A)%nat -> (1 <= len B)%nat -> (1 <= len C)%nat ->
  char_type A = char_type B ->
  char_type A = char_type C ->
  exists ab abc,
    concat A [B] = Some ab
    /\ concat A [B; C] = Some abc
    /\ concat ab [C] = Some abc
    /\ (len ab - 1 = (len A - 1) + (len B - 1))%nat.
Proof.
  intros HA HB HC HAB HAC.
  rewrite (concat_spec A [B]) by (try discriminate; repeat constructor; assumption).
  rewrite (concat_spec A [B; C]) by (try discriminate; repeat constructor; assumption).
  eexists. eexists. split; [reflexivity |]. split; [reflexivity |].
  set (ab := {| char_type := char_type A; str := _ |}).
  assert (Hlen : len ab = (len A - 1 + (len B - 1) + 1)%nat).
  { subst ab. unfold len at 1. cbn [str]. simpl List.concat.
    rewrite !length_app, !content_length. simpl. lia. }
  assert (Hcontent : content ab = content A ++ content B).
  { unfold content at 1. rewrite Hlen. subst ab. cbn [str]. simpl List.concat.
    rewrite app_nil_r, app_assoc.
    apply take_app_length'. rewrite length_app, !content_length. lia. }
  split; [| lia].
  rewrite (concat_spec ab [C]);
    [| discriminate | lia | repeat constructor; assumption
     | repeat constructor; subst ab; exact HAC].
  rewrite Hcontent. subst ab. cbn [char_type]. simpl List.concat.
  rewrite !app_nil_r, <- !app_assoc. reflexivity.
Qed.

Lemma concat_assoc_additive_witness :
  exists ab abc,
    concat (mk_metastr Char (lit "ab")) [mk_metastr Char (lit "c")] = Some ab
    /\ concat (mk_metastr Char (lit "ab"))
         [mk_metastr Char (lit "c"); mk_metastr Char (lit "def")] = Some abc
    /\ concat ab [mk_metastr Char (lit "def")] = Some abc
    /\ (len ab - 1 = 2 + 1)%nat.
Proof.
  apply (concat_assoc_additive (mk_metastr Char (lit "ab"))
           (mk_metastr Char (lit "c")) (mk_metastr Char (lit "def")));
    solve [ repeat constructor | reflexivity ].
Defined.

(** ** What the emission stores *)

Lemma emitted_length u : length (emitted u) = emit_count u.
Proof. unfold emitted, emit_count. repeat case_match; reflexivity. Qed.

Lemma emit_stores P u8 u st :
  (index st + emit_count u <= length (res st))%nat ->
  emit P u8 u st
  = Ret {| res := std_copy (cast P u8 <$> emitted u) (index st) (res st);
           index := (index st + emit_count u)%nat |}.
Proof.
  unfold emit, emitted, emit_count. intros H.
  repeat case_match; put_steps; simpl; do 2 f_equal; lia.
Qed.

(** Up to three units the stored values are those of UTF-8. *)
Lemma emitted_standard_below_0x10000 u :
  u < 0x10000 -> emitted u = spec_utf8 u.
Proof.
  intros H. unfold emitted, spec_utf8, spec_continuation.
  repeat case_match; try lia;
    rewrite ?(Z.lor_comm 0x80), ?(Z.lor_comm 0xc0), ?(Z.lor_comm 0xe0);
    reflexivity.
Qed.

(** With four units the third one is stored without the bit 0x80: it is
    below 0x40, so it is not a continuation byte. *)
Lemma emitted_four_units_third u :
  0x10000 <= u ->
  exists b,
    emitted u !! 2%nat = Some b
    /\ 0 <= b < 0x40
    /\ spec_utf8 u !! 2%nat = Some (Z.lor 0x80 b).
Proof.
  intros H. unfold emitted, spec_utf8, spec_continuation.
  repeat case_match; try lia.
  eexists. split; [reflexivity |]. split; [| reflexivity].
  change 0x3f with (Z.ones 6). rewrite Z.land_ones by lia.
  apply Z.mod_pos_bound. lia.
Qed.

Lemma emitted_four_units_not_utf8 u :
  0x10000 <= u -> emitted u <> spec_utf8 u.
Proof.
  intros H Heq.
  destruct (emitted_four_units_third u H) as (b & Hb & Hr & Hs).
  rewrite Heq, Hs in Hb. injection Hb as Hb.
  apply (f_equal (fun z => Z.testbit z 7)) in Hb.
  rewrite Z.lor_spec in Hb. change (Z.testbit 0x80 7) with true in Hb.
  cbn [orb] in Hb.
  assert (Hz : Z.testbit b 7 = false).
  { destruct (Z.eq_dec b 0) as [-> | Hnz]; [reflexivity |].
    apply Z.bits_above_log2; [lia |].
    apply Z.log2_lt_pow2; lia. }
  congruence.
Qed.

(** The wrap-around sum of [utf16to8] is the scalar value of the pair. *)
Lemma surrogate_pair_scalar lead trail :
  is_lead lead = true ->
  is_trail trail = true ->
  wrap32 (Z.shiftl lead 10 + trail + SURROGATE_OFFSET)
  = spec_pair_scalar lead trail.
Proof.
  unfold is_lead, is_trail, LEAD_SURROGATE_MIN, LEAD_SURROGATE_MAX,
    TRAIL_SURROGATE_MIN, TRAIL_SURROGATE_MAX, wrap32, SURROGATE_OFFSET,
    spec_pair_scalar.
  intros Hl Ht.
  apply andb_true_iff in Hl as [Hl1 Hl2]. apply andb_true_iff in Ht as [Ht1 Ht2].
  rewrite Z.shiftl_mul_pow2 by lia.
  change (2 ^ 10) with 1024. change (2 ^ 32) with 4294967296.
  replace (lead * 1024 + trail + 4238353408)
    with (65536 + (lead - 55296) * 1024 + (trail - 56320) + 1 * 4294967296)
    by lia.
  rewrite Z_mod_plus_full. apply Z.mod_small. lia.
Qed.

(** So the values stored for a surrogate pair are never its UTF-8
    sequence. *)
Lemma surrogate_pair_not_utf8 lead trail :
  is_lead lead = true ->
  is_trail trail = true ->
  let c := wrap32 (Z.shiftl lead 10 + trail + SURROGATE_OFFSET) in
  0x10000 <= c /\ emitted c <> spec_utf8 c.
Proof.
  intros Hl Ht c.
  assert (Hc : 0x10000 <= c).
  { subst c. rewrite (surrogate_pair_scalar _ _ Hl Ht).
    unfold is_lead, is_trail, LEAD_SURROGATE_MIN, TRAIL_SURROGATE_MIN in *.
    apply andb_true_iff in Hl as [Hl _]. apply andb_true_iff in Ht as [Ht _].
    unfold spec_pair_scalar. lia. }
  split; [exact Hc | apply emitted_four_units_not_utf8; exact Hc].
Qed.

(** ** Equality *)

Lemma unit_eq_refl c a : unit_eq c c a a = true.
Proof. unfold unit_eq. case_match; apply Z.eqb_refl. Qed.

Lemma std_equal_common_prefix eqb body t1 t2 :
  (forall a, eqb a a = true) ->
  std_equal eqb (length body) (body ++ t1) (body ++ t2) = true.
Proof.
  intros Hrefl. induction body as [|x body IH]; simpl.
  - reflexivity.
  - rewrite Hrefl. exact IH.
Qed.

Lemma forallb_drop_false {A} (f : A -> bool) (l : list A) n v :
  l !! n = Some v -> f v = false -> forallb f (drop n l) = false.
Proof.
  intros Hl Hf. rewrite (drop_S l v n Hl). simpl. rewrite Hf. reflexivity.
Qed.

(** The unit just before the terminator of the shorter operand is never
    compared: [std::equal] stops at [N - 2] and the zero test starts at
    [N - 1]. *)
Lemma eq_metastr_ignores_last_content_unit c body x y :
  eq_metastr (mk_metastr c (body ++ [x; 0])) (mk_metastr c (body ++ [y; 0]))
  = Ret true.
Proof.
  replace (body ++ [x; 0]) with ((body ++ [x]) ++ [0])
    by (rewrite <- app_assoc; reflexivity).
  replace (body ++ [y; 0]) with ((body ++ [y]) ++ [0])
    by (rewrite <- app_assoc; reflexivity).
  rewrite !mk_metastr_snoc. unfold eq_metastr, eq_array, len.
  cbn [char_type str]. rewrite !length_app. simpl length.
  rewrite Nat.leb_refl.
  destruct (Nat.ltb_spec (length body + 1 + 1) 2) as [Hlt | _]; [lia |].
  replace (length body + 1 + 1 - 2)%nat with (length body) by lia.
  rewrite <- !app_assoc.
  rewrite std_equal_common_prefix by apply unit_eq_refl.
  cbn [negb].
  replace (length body + 1 + 1 - 1)%nat with (length body + 1)%nat by lia.
  rewrite drop_app_add'; [| reflexivity].
  simpl. unfold is_nul, unit_eq. case_match; reflexivity.
Qed.

(** C1, at the inputs where the code departs from the rule: "abc" and
    "abd" compare equal, as metastrings, against the raw literal and
    against the view, although the rule of the specification separates
    them; the three examples of the claim come out as the claim says. *)
Theorem eq_skips_last_content_unit :
  eq_metastr (mk_metastr Char (lit "abc")) (mk_metastr Char (lit "abd")) = Ret true
  /\ eq_array (mk_metastr Char (lit "abc")) Char (lit "abd") = Ret true
  /\ eq_view (mk_metastr Char (lit "abc")) Char8 [0x61; 0x62; 0x64] = Ret true
  /\ spec_equal (lit "abc") (lit "abd") = false
  /\ eq_metastr (mk_metastr Char (lit "abc"))
       (mk_metastr Char (lit "abc" ++ [0; 0])) = Ret true
  /\ eq_metastr (mk_metastr Char (lit "abc")) (mk_metastr Char (lit "abcd"))
     = Ret false
  /\ eq_metastr (mk_metastr Char (lit "abc")) (mk_metastr Char (lit "ab"))
     = Ret false.
Proof. repeat split; reflexivity. Qed.

(** C2, at a scalar value that takes four units: the UTF-32 path stores
    U+1F600 as F0 9F 18 80, where UTF-8 has F0 9F 98 80: the third unit,
    a continuation byte, is written without 0x80. *)
Theorem utf32to8_four_units_third_unit :
  code_cvt linux true Char8 (mk_metastr Char32 [0x1F600; 0])
  = Some (Ret {| char_type := Char8; str := [0xF0; 0x9F; 0x18; 0x80; 0] |})
  /\ spec_utf8 0x1F600 = [0xF0; 0x9F; 0x98; 0x80]
  /\ emitted 0x1F600 = [0xF0; 0x9F; 0x18; 0x80].
Proof. repeat split; reflexivity. Qed.

(** C3, at the surrogate pair D83D DE00: the pair is combined into the
    scalar value U+1F600 as the formula says, but the four units stored are
    F0 9F 18 80 and not the UTF-8 sequence F0 9F 98 80. *)
Theorem utf16to8_surrogate_pair_units :
  wrap32 (Z.shiftl 0xD83D 10 + 0xDE00 + SURROGATE_OFFSET) = 0x1F600
  /\ spec_pair_scalar 0xD83D 0xDE00 = 0x1F600
  /\ code_cvt linux true Char8 (mk_metastr Char16 [0xD83D; 0xDE00; 0])
     = Some (Ret {| char_type := Char8;
                    str := [0xF0; 0x9F; 0x18; 0x80; 0; 0; 0; 0; 0] |})
  /\ spec_utf8 0x1F600 = [0xF0; 0x9F; 0x98; 0x80].
Proof. repeat split; reflexivity. Qed.

(** ** UTF-16 against UTF-8 *)

Lemma spec_utf8_nonzero c : 0 < c -> Forall (fun b => b <> 0) (spec_utf8 c).
Proof.
  intros Hc. unfold spec_utf8, spec_continuation.
  repeat case_match;
    repeat (match goal with |- Forall _ _ => constructor end);
    try lia;
    intros Hz; apply Z.lor_eq_0_iff in Hz as [Hz _]; discriminate Hz.
Qed.

Lemma spec_utf16_length c :
  (1 <= length (spec_utf16 c) <= length (spec_utf8 c))%nat
  /\ (0x80 <= c -> (length (spec_utf16 c) < length (spec_utf8 c))%nat).
Proof.
  unfold spec_utf16, spec_utf8. repeat case_match; simpl; lia.
Qed.

Lemma u8_units_nonzero text :
  Forall (fun c => 0 < c) text ->
  Forall (fun b => b <> 0) (List.concat (spec_utf8 <$> text)).
Proof.
  induction 1 as [|c text Hc _ IH]; [constructor |].
  rewrite fmap_cons. simpl. apply Forall_app. split; [| exact IH].
  apply spec_utf8_nonzero. exact Hc.
Qed.

Lemma u16_units_fewer text :
  (length (List.concat (spec_utf16 <$> text))
   <= length (List.concat (spec_utf8 <$> text)))%nat
  /\ (Exists (fun c => 0x80 <= c) text ->
      (1 <= length (List.concat (spec_utf16 <$> text))
       < length (List.concat (spec_utf8 <$> text)))%nat).
Proof.
  induction text as [|c text [IHle IHlt]].
  - simpl. split; [lia |]. intros H. inversion H.
  - rewrite !fmap_cons. cbn [List.concat]. rewrite !length_app.
    destruct (spec_utf16_length c) as [[H1 Hle] Hlt].
    split; [lia |]. intros Hex. inversion Hex as [? ? Hc | ? ? Hrest]; subst.
    + specialize (Hlt Hc). lia.
    + specialize (IHlt Hrest). lia.
Qed.

(** For a text without U+0000 that is not all ASCII, written as the two
    literals, the comparison answers "not equal" in both directions: the
    UTF-8 array is the longer one and holds a non-zero unit past the length
    of the UTF-16 one. *)
Lemma utf16_utf8_literals_differ text :
  Forall (fun c => 0 < c) text ->
  Exists (fun c => 0x80 <= c) text ->
  eq_metastr (mk_metastr Char16 (u16_literal text))
             (mk_metastr Char8 (u8_literal text)) = Ret false
  /\ eq_metastr (mk_metastr Char8 (u8_literal text))
                (mk_metastr Char16 (u16_literal text)) = Ret false.
Proof.
  intros Hpos Hex. unfold u16_literal, u8_literal.
  set (u16 := List.concat (spec_utf16 <$> text)).
  set (u8 := List.concat (spec_utf8 <$> text)).
  destruct (u16_units_fewer text) as [_ Hlt]. specialize (Hlt Hex).
  fold u16 u8 in Hlt.
  destruct (lookup_lt_is_Some_2 u8 (length u16)) as [v Hv]; [lia |].
  assert (Hnz : v <> 0).
  { pose proof (u8_units_nonzero text Hpos) as Hall. fold u8 in Hall.
    rewrite Forall_lookup in Hall. exact (Hall _ _ Hv). }
  assert (Htail : forallb (is_nul Char8) (drop (length u16) (u8 ++ [0])) = false).
  { apply (forallb_drop_false _ _ _ v).
    - apply lookup_app_l_Some. exact Hv.
    - unfold is_nul, unit_eq. simpl. lia. }
  rewrite !mk_metastr_snoc. unfold eq_metastr, eq_array, len.
  cbn [char_type str]. rewrite !length_app. simpl length.
  replace (length u16 + 1 - 1)%nat with (length u16) by lia.
  split.
  - destruct (Nat.leb_spec (length u16 + 1) (length u8 + 1)); [| lia].
    destruct (Nat.ltb_spec (length u16 + 1) 2); [lia |].
    case_match; [reflexivity |]. rewrite Htail. reflexivity.
  - destruct (Nat.leb_spec (length u8 + 1) (length u16 + 1)); [lia |].
    destruct (Nat.ltb_spec (length u16 + 1) 2); [lia |].
    case_match; [reflexivity |]. rewrite Htail. reflexivity.
Qed.

(** C7, at a text for which the code answers "equal": the text U+00C3
    U+0000 is C3 00 in UTF-16 and C3 83 00 in UTF-8, and the two metastrings
    compare equal in both directions because the unit before the terminator
    of the shorter one (00 against 83) is never compared; so does the
    padded UTF-16 form of U+00C3 alone against its UTF-8 form.  The rule of
    the specification separates them, and the literals of the test
    (U+6ED1 U+7A3D) do compare unequal. *)
Theorem utf16_utf8_same_text_compare_equal :
  u16_literal [0xC3; 0] = [0xC3; 0; 0]
  /\ u8_literal [0xC3; 0] = [0xC3; 0x83; 0; 0]
  /\ eq_metastr (mk_metastr Char16 (u16_literal [0xC3; 0]))
                (mk_metastr Char8 (u8_literal [0xC3; 0])) = Ret true
  /\ eq_metastr (mk_metastr Char8 (u8_literal [0xC3; 0]))
                (mk_metastr Char16 (u16_literal [0xC3; 0])) = Ret true
  /\ eq_metastr (mk_metastr Char16 (u16_literal [0xC3] ++ [0]))
                (mk_metastr Char8 (u8_literal [0xC3])) = Ret true
  /\ spec_equal (u16_literal [0xC3; 0]) (u8_literal [0xC3; 0]) = false
  /\ eq_array (mk_metastr Char8 (u8_literal [0x6ED1; 0x7A3D])) Char16
              (u16_literal [0x6ED1; 0x7A3D]) = Ret false.
Proof. repeat split; reflexivity. Qed.

(** ** The terminator slot of a result

    Every metastr that the library builds has a zero in its last slot: the
    constructor ([mk_metastr_terminated]), [concat] and [code_cvt]. *)

Lemma bind_Ret_inv {A B} (m : outcome A) (f : A -> outcome B) b :
  (m ≫= f) = Ret b -> exists a, m = Ret a /\ f a = Ret b.
Proof.
  destruct m as [a | | k]; intros H; try discriminate H.
  exists a. split; [reflexivity | exact H].
Qed.

Lemma put_zero_tail P u8 v st st' :
  put P u8 v st = Ret st' ->
  zero_tail st ->
  zero_tail st' /\ length (res st') = length (res st).
Proof.
  unfold put. case_match; [| discriminate]. intros [= <-] Hz. split.
  - intros i w Hi Hw. cbn [res index] in *.
    rewrite list_lookup_insert_ne in Hw by lia.
    apply (Hz i w); [lia | exact Hw].
  - apply length_insert.
Qed.

Lemma emit_zero_tail P u8 u st st' :
  emit P u8 u st = Ret st' ->
  zero_tail st ->
  zero_tail st' /\ length (res st') = length (res st).
Proof.
  unfold emit. intros He Hz.
  repeat case_match;
    repeat (apply bind_Ret_inv in He as (? & Hp & He);
            apply put_zero_tail in Hp as [? Hl]; [| assumption];
            rewrite <- Hl; clear Hl);
    eapply put_zero_tail; eassumption.
Qed.

Lemma utf32_loop_zero_tail P checked u8 units :
  forall st st',
  utf32_loop P checked u8 units st = Ret st' ->
  zero_tail st ->
  zero_tail st' /\ length (res st') = length (res st).
Proof.
  induction units as [|u units IH]; intros st st' Hl Hz; simpl in Hl.
  - injection Hl as <-. split; [assumption | reflexivity].
  - case_match; [discriminate |].
    apply bind_Ret_inv in Hl as (st1 & He & Hl).
    destruct (emit_zero_tail _ _ _ _ _ He Hz) as [Hz1 Hl1].
    destruct (IH _ _ Hl Hz1) as [Hz' Hl']. split; [assumption | congruence].
Qed.

Lemma utf16_loop_zero_tail P checked u8 units :
  forall st st',
  utf16_loop P checked u8 units st = Ret st' ->
  zero_tail st ->
  zero_tail st' /\ length (res st') = length (res st).
Proof.
  induction units as [| x | x y l IHl IHy] using list_pair_ind;
    intros st st' Hl Hz.
  - injection Hl as <-. split; [assumption | reflexivity].
  - cbn [utf16_loop] in Hl. repeat case_match; try discriminate.
    apply bind_Ret_inv in Hl as (st1 & He & [= <-]).
    eapply emit_zero_tail; eassumption.
  - cbn [utf16_loop] in Hl.
    destruct (checked && is_trail (Z.land x 0xffff)); [discriminate |].
    destruct (is_lead (Z.land x 0xffff)).
    + destruct (checked && negb (is_trail (Z.land y 0xffff))); [discriminate |].
      apply bind_Ret_inv in Hl as (st1 & He & Hl).
      destruct (emit_zero_tail _ _ _ _ _ He Hz) as [Hz1 Hl1].
      destruct (IHl _ _ Hl Hz1) as [Hz' Hl']. split; [assumption | congruence].
    + apply bind_Ret_inv in Hl as (st1 & He & Hl).
      destruct (emit_zero_tail _ _ _ _ _ He Hz) as [Hz1 Hl1].
      destruct (IHy _ _ Hl Hz1) as [Hz' Hl']. split; [assumption | congruence].
Qed.

Lemma utf32_loop_app P checked u8 l1 l2 :
  forall st,
  utf32_loop P checked u8 (l1 ++ l2) st
  = utf32_loop P checked u8 l1 st ≫= utf32_loop P checked u8 l2.
Proof.
  induction l1 as [|u l1 IH]; intros st; simpl.
  - reflexivity.
  - case_match; [reflexivity |].
    destruct (emit P u8 u st) as [st1 | | k]; simpl; [apply IH | reflexivity ..].
Qed.

Lemma zero_tail_start c n : zero_tail {| res := str (mk_metastr c (zeros n)); index := 0 |}.
Proof.
  intros i v _ Hv. cbn [res] in Hv. rewrite mk_metastr_zeros in Hv.
  unfold zeros in Hv. apply lookup_replicate in Hv as [-> _]. reflexivity.
Qed.

Lemma zero_tail_last st :
  zero_tail st ->
  (index st < length (res st))%nat ->
  last (res st) = Some 0.
Proof.
  intros Hz Hi. rewrite last_lookup.
  destruct (lookup_lt_is_Some_2 (res st) (pred (length (res st)))) as [v Hv];
    [lia |].
  rewrite Hv. f_equal. apply (Hz (pred (length (res st)))); [lia | exact Hv].
Qed.

Lemma utf32to8_terminated P checked u8 s r :
  terminated s ->
  utf32to8 P checked u8 s = Ret r ->
  terminated r.
Proof.
  intros Hterm Hr. destruct (terminated_split s Hterm) as (body & Hstr & Hlen).
  unfold utf32to8, utf32_run in Hr.
  apply bind_Ret_inv in Hr as (st & Hrun & [= <-]).
  rewrite Hstr, utf32_loop_app in Hrun.
  apply bind_Ret_inv in Hrun as (st1 & Hbody & Hlast).
  destruct (utf32_loop_zero_tail _ _ _ _ _ _ Hbody (zero_tail_start _ _))
    as [Hz1 Hl1].
  cbn [utf32_loop] in Hlast. case_match; [discriminate |].
  apply bind_Ret_inv in Hlast as (st2 & He & [= <-]).
  change (emit P u8 0 st1) with (put P u8 0 st1) in He.
  unfold put in He. case_match; [| discriminate]. injection He as <-.
  unfold terminated. cbn [str res].
  rewrite cast_0, last_lookup, length_insert.
  match goal with H : (_ <? _)%nat = true |- _ => apply Nat.ltb_lt in H end.
  destruct (decide (index st1 = pred (length (res st1)))) as [-> | Hne].
  - apply list_lookup_insert_eq. lia.
  - rewrite list_lookup_insert_ne by assumption.
    rewrite <- last_lookup. apply zero_tail_last; assumption.
Qed.

Lemma utf16to8_terminated P checked u8 s r :
  terminated s ->
  utf16to8 P checked u8 s = Ret r ->
  terminated r.
Proof.
  intros Hterm Hr. destruct (terminated_split s Hterm) as (body & Hstr & Hlen).
  unfold utf16to8 in Hr.
  apply bind_Ret_inv in Hr as (st & Hrun & [= <-]).
  unfold terminated. cbn [str].
  destruct body as [|b body].
  - unfold utf16_run in Hrun. rewrite Hstr, Hlen in Hrun. simpl in Hrun.
    change (Z.land 0 65535) with 0 in Hrun.
    change (is_trail 0) with false in Hrun.
    rewrite andb_false_r, cast_0 in Hrun. injection Hrun as <-.
    reflexivity.
  - destruct (utf16_run_terminated P checked u8 s Hterm)
      as [[_ Ha] | (st' & Hst' & Hi & Hl)]; [congruence |].
    rewrite Hrun in Hst'. injection Hst' as <-.
    unfold utf16_run in Hrun.
    destruct (utf16_loop_zero_tail _ _ _ _ _ _ Hrun (zero_tail_start _ _))
      as [Hz _].
    destruct (utf16_loop_terminated P u8 checked (str s)
                {| res := str (mk_metastr u8 (zeros (4 * len s - 3)));
                   index := 0 |} Hterm)
      as [[_ Ha] | (st' & Hst' & Hi' & _)].
    + cbn [res index]. rewrite start_buffer_length. fold (len s). lia.
    + congruence.
    + rewrite Hrun in Hst'. injection Hst' as <-.
      apply zero_tail_last; [assumption |].
      cbn [index] in Hi'. fold (len s) in Hi'. rewrite Hl.
      simpl length in Hlen. lia.
Qed.

Lemma code_cvt_terminated P checked Char_r s r :
  terminated s ->
  code_cvt P checked Char_r s = Some (Ret r) ->
  terminated r.
Proof.
  intros Hterm Hr.
  destruct (terminated_split s Hterm) as (body & Hstr & Hlen).
  destruct (is_utf8 (char_type s) && is_utf8 Char_r
            || is_utf16 P (char_type s) && is_utf16 P Char_r
            || is_utf32 P (char_type s) && is_utf32 P Char_r) eqn:Hfam.
  - rewrite code_cvt_same_family in Hr by (assumption || lia).
    injection Hr as <-. apply last_snoc.
  - unfold code_cvt in Hr. rewrite Hfam in Hr.
    repeat case_match; try discriminate; injection Hr as Hr.
    + eapply utf32to8_terminated; eassumption.
    + eapply utf16to8_terminated; eassumption.
Qed.

Lemma concat_terminated str1 strs r :
  Forall (fun s => (1 <= len s)%nat) (str1 :: strs) ->
  concat str1 strs = Some r ->
  terminated r.
Proof.
  intros Hlens Hr. apply Forall_cons in Hlens as [H1 Hlens].
  assert (Hne : strs <> []) by (intros ->; discriminate Hr).
  assert (Hcls : Forall (fun s => char_type str1 = char_type s) strs).
  { unfold concat in Hr. destruct strs as [|s0 strs0]; [congruence |].
    case_match eqn:Hall; [| discriminate].
    rewrite Forall_forall. intros s Hs.
    rewrite forallb_forall in Hall.
    apply list_elem_of_In in Hs. specialize (Hall s Hs).
    apply bool_decide_eq_true in Hall. exact Hall. }
  rewrite concat_spec in Hr by assumption. injection Hr as <-.
  unfold terminated. cbn [str]. rewrite app_assoc. apply last_snoc.
Qed.

(** ** The assertions of test/test_metastr.hh

    Each [static_assert] and [assert] of the repository's tests, evaluated
    on the model. *)

Example test_metastr_init :
  let _1 := mk_metastr Char (lit "abc") in
  eq_metastr _1 (mk_metastr WChar (lit "abc")) = Ret true
  /\ eq_metastr _1 (mk_metastr Char8 (lit "abc")) = Ret true
  /\ eq_metastr _1 (mk_metastr Char16 (lit "abc")) = Ret true
  /\ eq_metastr _1 (mk_metastr Char32 (lit "abc")) = Ret true.
Proof. repeat split; reflexivity. Qed.

Example test_metastr_eq :
  let abc := mk_metastr Char (lit "abc") in
  eq_view abc Char8 [0x61; 0x62; 0x63] = Ret true
  /\ eq_array abc Char (lit "abc") = Ret true
  /\ eq_array abc Char (lit "ab") = Ret false
  /\ eq_array abc Char (lit "abcd") = Ret false
  /\ eq_array (mk_metastr Char (lit "abc" ++ [0; 0])) Char (lit "abc") = Ret true
  /\ eq_array abc Char (lit "abc" ++ [0; 0]) = Ret true
  /\ eq_metastr abc (mk_metastr Char (lit "abc")) = Ret true
  /\ eq_metastr abc (mk_metastr Char (lit "abc" ++ [0; 0])) = Ret true
  /\ eq_metastr abc (mk_metastr Char (lit "abcd")) = Ret false
  /\ eq_metastr abc (mk_metastr Char (lit "ab")) = Ret false
  /\ eq_array abc Char8 (lit "abc") = Ret true
  /\ eq_array abc Char8 (lit "ab") = Ret false
  /\ eq_array abc Char8 (lit "abcd") = Ret false
  /\ eq_array (mk_metastr Char8 (u8_literal [0x6ED1; 0x7A3D])) Char16
       (u16_literal [0x6ED1; 0x7A3D]) = Ret false.
Proof. repeat split; reflexivity. Qed.

Example runtime_test_metastr_eq :
  let abc := mk_metastr Char (lit "abc") in
  eq_view abc Char8 [0x61; 0x62; 0x63] = Ret true
  /\ eq_view (mk_metastr Char (lit "abc" ++ [0])) Char8 [0x61; 0x62; 0x63]
     = Ret true
  /\ eq_view abc Char8 [0x61; 0x62] = Ret false
  /\ eq_view abc Char8 [0x61; 0x62; 0x63; 0x64] = Ret false
  /\ eq_view (mk_metastr Char (lit "abc" ++ [0; 0])) Char8 [0x61; 0x62; 0x63]
     = Ret true
  /\ eq_view abc Char8 [0x61; 0x62; 0x63; 0] = Ret true.
Proof. repeat split; reflexivity. Qed.

Example test_concat :
  let abcdef := mk_metastr Char (lit "abcdef") in
  let str1 := mk_metastr Char (lit "abc") in
  let str2 := mk_metastr Char (lit "def") in
  concat str1 [str2] = Some abcdef
  /\ concat_args [a_c_str Char (lit "abc"); a_c_str Char (lit "def")] = Some abcdef
  /\ concat_args [a_metastr str1; a_c_str Char (lit "def")] = Some abcdef
  /\ concat_args [a_c_str Char (lit "abc"); a_metastr str2] = Some abcdef
  /\ concat_args [a_metastr str1; a_metastr str2] = Some abcdef
  /\ (exists r,
        concat_args [a_c_str Char8 (lit "abc"); a_c_str Char8 (lit "def");
                     a_c_str Char8 (lit "2333");
                     a_c_str Char8 (u8_literal [0x6ED1; 0x7A3D])] = Some r
        /\ eq_metastr r
             (mk_metastr Char8
                (take 10 (lit "abcdef2333") ++ u8_literal [0x6ED1; 0x7A3D]))
           = Ret true).
Proof.
  repeat split; try reflexivity.
  eexists. split; reflexivity.
Qed.

Example test_code_cvt :
  let u32 := mk_metastr Char32 [0x6D4B; 0x901D; 0] in
  let u16 := mk_metastr Char16 (u16_literal [0x6D4B; 0x901D]) in
  eq_array u32 Char8 (u8_literal [0x6D4B; 0x901D]) = Ret false
  /\ (exists r,
        code_cvt linux true Char8 u32 = Some (Ret r)
        /\ eq_array r Char8 (u8_literal [0x6D4B; 0x901D]) = Ret true
        /\ eq_array r Char32 [0x6D4B; 0x901D; 0] = Ret false)
  /\ (exists r,
        code_cvt linux true Char8 u16 = Some (Ret r)
        /\ eq_array r Char8 (u8_literal [0x6D4B; 0x901D]) = Ret true
        /\ eq_array r Char16 (u16_literal [0x6D4B; 0x901D]) = Ret false).
Proof.
  split; [reflexivity |]. split; eexists; repeat split; reflexivity.
Qed.

(** * More of the code *)

(** ** Construction and the runtime views *)

(** X1: the constructor copies every element of the array but the last,
    whatever the last one is, and leaves a zero in the last slot; the
    conversion to [basic_string_view] (or [basic_string]) then gives back
    exactly the copied elements. *)
Theorem constructor_then_view c body x :
  mk_metastr c (body ++ [x]) = {| char_type := c; str := body ++ [0] |}
  /\ to_view (mk_metastr c (body ++ [x])) = body.
Proof.
  assert (Hm : mk_metastr c (body ++ [x])
               = {| char_type := c; str := body ++ [0] |}).
  { change (mk_metastr c (body ++ [x]))
      with {| char_type := c; str := str (mk_metastr c (body ++ [x])) |}.
    f_equal. rewrite mk_metastr_str by (rewrite length_app; simpl; lia).
    rewrite length_app. simpl. rewrite Nat.add_sub, take_app_length.
    reflexivity. }
  split; [exact Hm |].
  rewrite Hm. unfold to_view, len. cbn [str].
  rewrite length_app. simpl. rewrite Nat.add_sub. apply take_app_length.
Qed.

(** ** Equality *)

Lemma unit_eq_sym ca cb a b : unit_eq ca cb a b = unit_eq cb ca b a.
Proof.
  unfold unit_eq. rewrite (orb_comm (promotes_unsigned ca)).
  case_match; apply Z.eqb_sym.
Qed.

Lemma std_equal_sym e1 e2 n a b :
  (forall x y, e1 x y = e2 y x) ->
  std_equal e1 n a b = std_equal e2 n b a.
Proof.
  intros He. revert a b. induction n as [|n IH]; intros a b; simpl.
  - reflexivity.
  - destruct a as [|x a], b as [|y b]; try reflexivity.
    rewrite He, IH. reflexivity.
Qed.

Lemma std_equal_app_r e n a b t :
  (n <= length b)%nat -> std_equal e n a (b ++ t) = std_equal e n a b.
Proof.
  revert a b. induction n as [|n IH]; intros a b Hn; simpl.
  - reflexivity.
  - destruct a as [|x a]; [reflexivity |].
    destruct b as [|y b]; simpl in *; [lia |].
    rewrite IH by lia. reflexivity.
Qed.

Lemma std_equal_app_l e n a b t :
  (n <= length a)%nat -> std_equal e n (a ++ t) b = std_equal e n a b.
Proof.
  revert a b. induction n as [|n IH]; intros a b Hn; simpl.
  - reflexivity.
  - destruct a as [|x a]; simpl in *; [lia |].
    destruct b as [|y b]; [reflexivity |].
    rewrite IH by lia. reflexivity.
Qed.

Lemma std_equal_refl e n a :
  (forall x, e x x = true) -> (n <= length a)%nat -> std_equal e n a a = true.
Proof.
  intros He. revert a. induction n as [|n IH]; intros a Hn; simpl.
  - reflexivity.
  - destruct a as [|x a]; simpl in *; [lia |].
    rewrite He. apply IH. lia.
Qed.

Lemma is_nul_0 c : is_nul c 0 = true.
Proof. unfold is_nul, unit_eq. case_match; reflexivity. Qed.

Lemma forallb_is_nul_zeros c k : forallb (is_nul c) (zeros k) = true.
Proof.
  unfold zeros. induction k as [|k IH]; simpl; [reflexivity |].
  rewrite is_nul_0. exact IH.
Qed.

Lemma terminated_drop s :
  terminated s -> drop (len s - 1) (str s) = [0].
Proof.
  intros H. destruct (terminated_split s H) as (body & Hs & Hl).
  rewrite Hl, Hs. simpl. rewrite Nat.sub_0_r.
  rewrite drop_app_length. reflexivity.
Qed.

Lemma eq_metastr_pad_r s k :
  terminated s -> (2 <= len s)%nat -> eq_metastr s (pad k s) = Ret true.
Proof.
  intros Ht Hl. unfold eq_metastr, eq_array, pad. cbn [char_type str].
  rewrite length_app. fold (len s). unfold zeros at 1. rewrite length_replicate.
  destruct (Nat.leb_spec (len s) (len s + k)); [| lia].
  destruct (Nat.ltb_spec (len s) 2); [lia |].
  rewrite std_equal_app_r by (fold (len s); lia).
  rewrite std_equal_refl by (try apply unit_eq_refl; fold (len s); lia).
  cbn [negb]. rewrite drop_app_le by (fold (len s); lia).
  rewrite (terminated_drop s Ht). simpl.
  rewrite is_nul_0, forallb_is_nul_zeros. reflexivity.
Qed.

Lemma eq_metastr_refl s :
  terminated s -> (2 <= len s)%nat -> eq_metastr s s = Ret true.
Proof.
  intros Ht Hl. unfold eq_metastr, eq_array. fold (len s).
  rewrite Nat.leb_refl.
  destruct (Nat.ltb_spec (len s) 2); [lia |].
  rewrite std_equal_refl by (try apply unit_eq_refl; fold (len s); lia).
  cbn [negb]. rewrite (terminated_drop s Ht). simpl.
  rewrite is_nul_0. reflexivity.
Qed.

Lemma eq_metastr_sym a b :
  terminated a -> terminated b -> eq_metastr a b = eq_metastr b a.
Proof.
  intros Ha Hb. unfold eq_metastr, eq_array. fold (len a) (len b).
  destruct (Nat.leb_spec (len a) (len b)) as [Hab | Hab];
    destruct (Nat.leb_spec (len b) (len a)) as [Hba | Hba]; try lia;
    try reflexivity.
  assert (Heq : len a = len b) by lia.
  pose proof (terminated_drop a Ha) as Hda.
  pose proof (terminated_drop b Hb) as Hdb.
  rewrite Heq in *. rewrite Hda, Hdb.
  rewrite (std_equal_sym (unit_eq (char_type a) (char_type b))
             (unit_eq (char_type b) (char_type a)) _ (str a) (str b))
    by apply unit_eq_sym.
  simpl. rewrite !is_nul_0. reflexivity.
Qed.

(** X2: a metastr with a zero terminator and at least one more unit
    compares equal to itself and to itself followed by any number of zero
    units, whichever side the padded one stands on. *)
Theorem eq_metastr_tolerates_padding s k :
  terminated s ->
  (2 <= len s)%nat ->
  eq_metastr s s = Ret true
  /\ eq_metastr s (pad k s) = Ret true
  /\ eq_metastr (pad k s) s = Ret true.
Proof.
  intros Ht Hl. split; [apply eq_metastr_refl; assumption |].
  split; [apply eq_metastr_pad_r; assumption |].
  rewrite eq_metastr_sym.
  - apply eq_metastr_pad_r; assumption.
  - unfold terminated, pad. cbn [str].
    destruct (terminated_split s Ht) as (body & -> & _).
    destruct k as [|k].
    + rewrite app_nil_r. apply last_snoc.
    + unfold zeros. rewrite replicate_S_end, !app_assoc. apply last_snoc.
  - exact Ht.
Qed.

Lemma eq_metastr_tolerates_padding_witness :
  eq_metastr (mk_metastr Char8 [0x61; 0]) (pad 3 (mk_metastr Char8 [0x61; 0]))
  = Ret true.
Proof.
  exact (proj1 (proj2 (eq_metastr_tolerates_padding
                         (mk_metastr Char8 [0x61; 0]) 3 eq_refl (le_n 2)))).
Defined.

(** X3: between two metastrings that both end in a zero unit the
    comparison gives the same outcome in either order, whatever their
    classes and lengths. *)
Theorem eq_metastr_symmetric a b :
  terminated a -> terminated b -> eq_metastr a b = eq_metastr b a.
Proof. apply eq_metastr_sym. Qed.

Lemma eq_metastr_symmetric_witness :
  eq_metastr (mk_metastr Char16 [0xC3; 0]) (mk_metastr Char8 [0xC3; 0x83; 0])
  = eq_metastr (mk_metastr Char8 [0xC3; 0x83; 0]) (mk_metastr Char16 [0xC3; 0]).
Proof.
  exact (eq_metastr_symmetric (mk_metastr Char16 [0xC3; 0])
           (mk_metastr Char8 [0xC3; 0x83; 0]) eq_refl eq_refl).
Defined.

Lemma eq_view_array s c v :
  terminated s -> eq_view s c v = eq_array s c (v ++ [0]).
Proof.
  intros Ht. unfold eq_view, eq_array. rewrite length_app. simpl length.
  pose proof (terminated_drop s Ht) as Hd.
  destruct (terminated_split s Ht) as (body & Hstr & Hlen).
  destruct (Nat.leb_spec (len s) (length v)) as [Hle | Hgt].
  - destruct (Nat.leb_spec (len s) (length v + 1)); [| lia].
    destruct (Nat.ltb_spec (len s) 2); [reflexivity |].
    rewrite std_equal_app_r by lia.
    rewrite drop_app_le by lia. rewrite forallb_app. simpl.
    rewrite is_nul_0, !andb_true_r. reflexivity.
  - destruct (Nat.leb_spec (len s) (length v + 1)) as [Hle1 | Hgt1].
    + assert (Hsz : length v = (len s - 1)%nat) by lia.
      destruct (Nat.ltb_spec (length v) 1); destruct (Nat.ltb_spec (len s) 2);
        try lia; [reflexivity |].
      rewrite Hsz, Hd.
      replace (len s - 1 - 1)%nat with (len s - 2)%nat by lia.
      rewrite std_equal_app_r by lia.
      rewrite (std_equal_sym (unit_eq c (char_type s))
                 (unit_eq (char_type s) c)) by apply unit_eq_sym.
      rewrite <- Hsz, drop_app_length. simpl.
      rewrite !is_nul_0. reflexivity.
    + destruct (Nat.ltb_spec (length v) 1);
        destruct (Nat.ltb_spec (length v + 1) 2); try lia; [reflexivity |].
      rewrite Nat.add_sub.
      replace (length v + 1 - 2)%nat with (length v - 1)%nat by lia.
      rewrite std_equal_app_l by lia. reflexivity.
Qed.

(** X5: for a metastr that ends in a zero unit, comparing it with a
    [basic_string_view] (or a [basic_string]) gives the outcome of
    comparing it with the raw literal of the same units. *)
Theorem eq_view_is_eq_literal s c v :
  terminated s ->
  eq_view s c v = eq_array s c (v ++ [0])
  /\ eq_string s c v = eq_array s c (v ++ [0]).
Proof. intros Ht. split; apply eq_view_array; exact Ht. Qed.

Lemma eq_view_is_eq_literal_witness :
  eq_view (mk_metastr Char (lit "abc")) Char8 [0x61; 0x62; 0x63]
  = eq_array (mk_metastr Char (lit "abc")) Char8 ([0x61; 0x62; 0x63] ++ [0]).
Proof.
  exact (proj1 (eq_view_is_eq_literal (mk_metastr Char (lit "abc")) Char8
                  [0x61; 0x62; 0x63] eq_refl)).
Defined.

(** X6: a metastr that ends in a zero unit and has at least one more unit
    compares equal to its own conversion to [basic_string_view]. *)
Theorem eq_own_view s :
  terminated s ->
  (2 <= len s)%nat ->
  eq_view s (char_type s) (to_view s) = Ret true.
Proof.
  intros Ht Hl. rewrite eq_view_array by exact Ht.
  destruct (terminated_split s Ht) as (body & Hstr & Hlen).
  assert (Hv : to_view s ++ [0] = str s).
  { unfold to_view. rewrite Hlen, Hstr. simpl.
    rewrite Nat.sub_0_r, take_app_length. reflexivity. }
  rewrite Hv. apply (eq_metastr_refl s Ht Hl).
Qed.

Lemma eq_own_view_witness :
  eq_view (mk_metastr Char16 [0x6ED1; 0x7A3D; 0]) Char16 [0x6ED1; 0x7A3D]
  = Ret true.
Proof.
  exact (eq_own_view (mk_metastr Char16 [0x6ED1; 0x7A3D; 0]) eq_refl
           (le_S _ _ (le_n 2))).
Defined.

Lemma is_nul_nonzero c u :
  u <> 0 -> - 2 ^ 32 < u < 2 ^ 32 -> is_nul c u = false.
Proof.
  intros Hu Hr. unfold is_nul, unit_eq. case_match.
  - apply Z.eqb_neq. change (0 mod 2 ^ 32) with 0. intros H0.
    apply Z.mod_divide in H0; [| lia].
    destruct H0 as [q Hq]. change (2 ^ 32) with 4294967296 in *. nia.
  - apply Z.eqb_neq. exact Hu.
Qed.

Lemma eq_array_longer_plain s c other bs bo :
  str s = bs ++ [0] -> bs <> [] ->
  other = bo ++ [0] ->
  Forall (fun u => u <> 0 /\ - 2 ^ 32 < u < 2 ^ 32) bo ->
  (length bs < length bo)%nat ->
  eq_array s c other = Ret false
  /\ eq_array {| char_type := c; str := other |} (char_type s) (str s)
     = Ret false.
Proof.
  intros Hs Hne -> Hbo Hlt.
  assert (1 <= length bs)%nat by (destruct bs; simpl; [congruence | lia]).
  destruct (lookup_lt_is_Some_2 bo (length bs) Hlt) as [v Hv].
  assert (Hnul : is_nul c v = false).
  { rewrite Forall_lookup in Hbo. destruct (Hbo _ _ Hv) as [H0 Hr].
    apply is_nul_nonzero; assumption. }
  assert (Htail : forallb (is_nul c) (drop (length bs) (bo ++ [0])) = false).
  { apply (forallb_drop_false _ _ _ v); [| exact Hnul].
    apply lookup_app_l_Some. exact Hv. }
  unfold eq_array, len. cbn [char_type str]. rewrite Hs, !length_app.
  simpl length. replace (length bs + 1 - 1)%nat with (length bs) by lia.
  split.
  - destruct (Nat.leb_spec (length bs + 1) (length bo + 1)); [| lia].
    destruct (Nat.ltb_spec (length bs + 1) 2); [lia |].
    case_match; [reflexivity |]. rewrite Htail. reflexivity.
  - destruct (Nat.leb_spec (length bo + 1) (length bs + 1)); [lia |].
    destruct (Nat.ltb_spec (length bs + 1) 2); [lia |].
    case_match; [reflexivity |]. rewrite Htail. reflexivity.
Qed.

(** X7: two names as they are written (at least one character, no zero
    before the terminator) that differ in length never compare equal. *)
Theorem eq_metastr_different_lengths a b :
  plain a -> plain b -> len a <> len b -> eq_metastr a b = Ret false.
Proof.
  intros (ba & Ha & Hnea & Hfa) (bb & Hb & Hneb & Hfb) Hlen.
  unfold len in Hlen. rewrite Ha, Hb, !length_app in Hlen. simpl in Hlen.
  unfold eq_metastr.
  destruct (Nat.lt_ge_cases (length ba) (length bb)) as [Hlt | Hge].
  - exact (proj1 (eq_array_longer_plain a (char_type b) (str b) ba bb
                    Ha Hnea Hb Hfb Hlt)).
  - assert (Hlt : (length bb < length ba)%nat) by lia.
    pose proof (proj2 (eq_array_longer_plain b (char_type a) (str a) bb ba
                         Hb Hneb Ha Hfa Hlt)) as H.
    destruct a as [ca sa]. exact H.
Qed.

Lemma eq_metastr_different_lengths_witness :
  eq_metastr (mk_metastr Char (lit "abc")) (mk_metastr Char (lit "abcd"))
  = Ret false.
Proof.
  apply eq_metastr_different_lengths.
  - exists [0x61; 0x62; 0x63]. split; [reflexivity |].
    split; [discriminate |]. repeat constructor; lia.
  - exists [0x61; 0x62; 0x63; 0x64]. split; [reflexivity |].
    split; [discriminate |]. repeat constructor; lia.
  - discriminate.
Defined.

(** ** code_cvt *)

Lemma family_bits P c :
  is_utf8 c = (bits P c =? 8)
  /\ is_utf16 P c = (bits P c =? 16)
  /\ is_utf32 P c = (bits P c =? 32).
Proof. destruct c, P as [cs [|]]; repeat split; reflexivity. Qed.

Lemma code_cvt_none_iff P checked Char_r s :
  code_cvt P checked Char_r s = None
  <-> bits P Char_r <> 8 /\ bits P Char_r <> bits P (char_type s).
Proof.
  unfold code_cvt.
  destruct (family_bits P Char_r) as (R8 & R16 & R32).
  destruct (family_bits P (char_type s)) as (S8 & S16 & S32).
  rewrite R8, R16, R32, S8, S16, S32.
  assert (Hr : bits P Char_r = 8 \/ bits P Char_r = 16 \/ bits P Char_r = 32)
    by (destruct Char_r, P as [cs [|]]; simpl; auto).
  assert (Hs : bits P (char_type s) = 8 \/ bits P (char_type s) = 16
               \/ bits P (char_type s) = 32)
    by (destruct (char_type s), P as [cs [|]]; simpl; auto).
  destruct Hr as [-> | [-> | ->]], Hs as [-> | [-> | ->]]; simpl;
    split; try discriminate; try (intros [H1 H2]; congruence);
    intros _; split; discriminate.
Qed.

Lemma cast_mod P c a : cast P c (a mod 2 ^ bits P c) = cast P c a.
Proof.
  unfold cast.
  assert (Hm : 2 ^ bits P c <> 0) by (destruct c, P as [? [|]]; discriminate).
  destruct (is_signed P c).
  - rewrite Zplus_mod_idemp_l. reflexivity.
  - apply Z.mod_mod. exact Hm.
Qed.

Lemma cast_cast P c c' v :
  bits P c = bits P c' -> in_range P c v -> cast P c (cast P c' v) = v.
Proof.
  intros Hb Hr.
  rewrite <- (cast_mod P c (cast P c' v)), Hb, cast_same_bits, <- Hb, cast_mod.
  apply cast_in_range. exact Hr.
Qed.

Lemma same_family_bits P c c' :
  is_utf8 c && is_utf8 c' || is_utf16 P c && is_utf16 P c'
  || is_utf32 P c && is_utf32 P c' = true ->
  bits P c = bits P c'.
Proof.
  destruct c, c', P as [cs [|]]; simpl; intros H; try discriminate; reflexivity.
Qed.

Lemma same_family_sym P c c' :
  is_utf8 c && is_utf8 c' || is_utf16 P c && is_utf16 P c'
  || is_utf32 P c && is_utf32 P c'
  = (is_utf8 c' && is_utf8 c || is_utf16 P c' && is_utf16 P c
     || is_utf32 P c' && is_utf32 P c).
Proof. destruct c, c', P as [cs [|]]; reflexivity. Qed.

Lemma terminated_len s : terminated s -> (1 <= len s)%nat.
Proof.
  unfold terminated, len. destruct (str s); [discriminate | simpl; lia].
Qed.

(** X8: with the checks compiled out, [code_cvt] of an input that ends in
    the terminator runs to completion and returns a metastr exactly when the
    target class has 8-bit units or units of the same width as the source;
    for every other pair of classes, checked or not, no branch of the
    [if constexpr] chain is taken and there is no conversion at all. *)
Theorem code_cvt_returns_iff P checked Char_r s :
  terminated s ->
  ((exists r, code_cvt P false Char_r s = Some (Ret r))
   <-> bits P Char_r = 8 \/ bits P Char_r = bits P (char_type s))
  /\ (code_cvt P checked Char_r s = None
      <-> bits P Char_r <> 8 /\ bits P Char_r <> bits P (char_type s)).
Proof.
  intros Hterm. split; [| apply code_cvt_none_iff]. split.
  - intros [r Hr].
    destruct (Z.eq_dec (bits P Char_r) 8) as [? | H8]; [left; assumption |].
    destruct (Z.eq_dec (bits P Char_r) (bits P (char_type s))) as [? | Hw];
      [right; assumption |].
    assert (Hn : code_cvt P false Char_r s = None)
      by (apply code_cvt_none_iff; split; assumption).
    rewrite Hn in Hr. discriminate Hr.
  - intros Hc.
    destruct (family_bits P Char_r) as (R8 & R16 & R32).
    destruct (family_bits P (char_type s)) as (S8 & S16 & S32).
    destruct (Z.eq_dec (bits P Char_r) (bits P (char_type s))) as [Hw | Hw].
    + eexists. apply code_cvt_same_family; [apply terminated_len, Hterm |].
      rewrite R8, R16, R32, S8, S16, S32, Hw.
      destruct (char_type s), P as [cs [|]]; reflexivity.
    + destruct Hc as [H8 | ?]; [| contradiction].
      assert (Hu8 : is_utf8 Char_r = true) by (rewrite R8, H8; reflexivity).
      assert (Hs : is_utf32 P (char_type s) = true
                   \/ is_utf16 P (char_type s) = true).
      { rewrite H8 in Hw.
        destruct (char_type s), P as [cs [|]]; simpl in *; auto; congruence. }
      destruct Hs as [H32 | H16].
      * rewrite (code_cvt_utf32 P false Char_r s H32 Hu8). unfold utf32to8.
        destruct (utf32_run_terminated P false Char_r s Hterm)
          as [[Hf _] | (st & -> & _)]; [discriminate Hf |].
        eexists. reflexivity.
      * rewrite (code_cvt_utf16 P false Char_r s H16 Hu8). unfold utf16to8.
        destruct (utf16_run_terminated P false Char_r s Hterm)
          as [[Hf _] | (st & -> & _)]; [discriminate Hf |].
        eexists. reflexivity.
Qed.

Lemma code_cvt_returns_iff_witness :
  (exists r, code_cvt linux false Char8 (mk_metastr Char16 [0xD83D; 0xDE00; 0])
             = Some (Ret r))
  /\ code_cvt linux true Char16 (mk_metastr Char8 [0x61; 0]) = None.
Proof.
  split.
  - apply (code_cvt_returns_iff linux false Char8
             (mk_metastr Char16 [0xD83D; 0xDE00; 0]) eq_refl).
    left. reflexivity.
  - apply (code_cvt_returns_iff linux true Char16
             (mk_metastr Char8 [0x61; 0]) eq_refl).
    split; discriminate.
Defined.

(** X9: converting a metastr to another class of its own family and back
    gives the metastr again, when it ends in a zero unit and its units are
    values of its class (for instance char to char8_t to char). *)
Theorem code_cvt_same_family_round_trip P checked Char_r s :
  terminated s ->
  Forall (in_range P (char_type s)) (str s) ->
  is_utf8 (char_type s) && is_utf8 Char_r
  || is_utf16 P (char_type s) && is_utf16 P Char_r
  || is_utf32 P (char_type s) && is_utf32 P Char_r = true ->
  exists r,
    code_cvt P checked Char_r s = Some (Ret r)
    /\ code_cvt P checked (char_type s) r = Some (Ret s).
Proof.
  intros Ht Hr Hfam.
  destruct (terminated_split s Ht) as (body & Hstr & Hlen).
  eexists. split; [apply code_cvt_same_family; [lia | exact Hfam] |].
  set (r := {| char_type := Char_r; str := _ |}).
  assert (Hrl : len r = len s).
  { subst r. unfold len at 1. cbn [str].
    rewrite length_app, length_fmap, content_length. simpl. lia. }
  rewrite code_cvt_same_family;
    [| lia | subst r; cbn [char_type]; rewrite same_family_sym; exact Hfam].
  do 2 f_equal. destruct s as [cs ss]. cbn [char_type str] in *.
  f_equal.
  assert (Hcr : content r = cast P Char_r <$> body).
  { unfold content. rewrite Hrl. subst r. cbn [str]. unfold content, len.
    cbn [str]. rewrite Hstr, length_app. simpl length.
    rewrite Nat.add_sub, take_app_length.
    apply take_app_length'. rewrite length_fmap. reflexivity. }
  rewrite Hcr, Hstr. f_equal. rewrite <- list_fmap_compose.
  rewrite Hstr in Hr. apply Forall_app in Hr as [Hb _].
  clear - Hb Hfam. induction Hb as [|v l Hv _ IH]; simpl; [reflexivity |].
  f_equal; [| exact IH].
  apply cast_cast; [| exact Hv]. apply same_family_bits. exact Hfam.
Qed.

Lemma code_cvt_same_family_round_trip_witness :
  exists r,
    code_cvt linux true Char8 {| char_type := Char; str := [-26; -69; -111; 0] |}
    = Some (Ret r)
    /\ code_cvt linux true Char r
       = Some (Ret {| char_type := Char; str := [-26; -69; -111; 0] |}).
Proof.
  apply (code_cvt_same_family_round_trip linux true Char8
           {| char_type := Char; str := [-26; -69; -111; 0] |}).
  - reflexivity.
  - repeat constructor; unfold in_range; simpl; lia.
  - reflexivity.
Defined.

(** X10: whatever [code_cvt] returns for an input that ends in a zero unit
    ends in a zero unit again, in every direction and in both modes. *)
Theorem code_cvt_keeps_terminator P checked Char_r s r :
  terminated s ->
  code_cvt P checked Char_r s = Some (Ret r) ->
  terminated r /\ char_type r = Char_r.
Proof.
  intros Ht Hr. split; [eapply code_cvt_terminated; eassumption |].
  unfold code_cvt in Hr.
  repeat case_match; try discriminate; injection Hr as Hr.
  - subst r. reflexivity.
  - unfold utf32to8 in Hr. apply bind_Ret_inv in Hr as (st & _ & [= <-]).
    reflexivity.
  - unfold utf16to8 in Hr. apply bind_Ret_inv in Hr as (st & _ & [= <-]).
    reflexivity.
Qed.

Lemma code_cvt_keeps_terminator_witness :
  terminated {| char_type := Char8; str := [0xF0; 0x9F; 0x18; 0x80; 0] |}.
Proof.
  exact (proj1 (code_cvt_keeps_terminator linux true Char8
                  (mk_metastr Char32 [0x1F600; 0])
                  {| char_type := Char8; str := [0xF0; 0x9F; 0x18; 0x80; 0] |}
                  eq_refl eq_refl)).
Defined.

(** ** The transcoders on whole strings *)

Lemma std_copy_app a b off dst :
  std_copy (a ++ b) off dst = std_copy b (off + length a) (std_copy a off dst).
Proof.
  revert off dst. induction a as [|x a IH]; intros off dst; simpl.
  - rewrite Nat.add_0_r. reflexivity.
  - rewrite IH. f_equal. lia.
Qed.

Lemma std_copy_zeros X n :
  (length X <= n)%nat -> std_copy X 0 (zeros n) = X ++ zeros (n - length X).
Proof.
  intros H. rewrite std_copy_spec by (unfold zeros; rewrite length_replicate; lia).
  rewrite take_0, app_nil_l, Nat.add_0_l. unfold zeros.
  rewrite drop_replicate. reflexivity.
Qed.

Lemma utf32_loop_stores P checked u8 units :
  forall st,
  checked && existsb invalid_scalar units = false ->
  (index st + sum_list (emit_count <$> units) <= length (res st))%nat ->
  utf32_loop P checked u8 units st
  = Ret {| res := std_copy (cast P u8 <$> List.concat (emitted <$> units))
                    (index st) (res st);
           index := (index st + sum_list (emit_count <$> units))%nat |}.
Proof.
  induction units as [|u units IH]; intros st Hv Hroom.
  - simpl. rewrite Nat.add_0_r. destruct st. reflexivity.
  - rewrite fmap_cons in Hroom. cbn [sum_list_with] in Hroom.
    change (id (emit_count u)) with (emit_count u) in Hroom.
    assert (checked && invalid_scalar u = false
            /\ checked && existsb invalid_scalar units = false) as [Hu Hrest].
    { destruct checked; simpl in *; [apply orb_false_elim in Hv |]; auto. }
    cbn [utf32_loop]. rewrite Hu.
    rewrite emit_stores by lia. rewrite bind_Ret.
    rewrite IH; [| exact Hrest | cbn [res index]; rewrite std_copy_length; lia].
    cbn [res index]. rewrite !fmap_cons. cbn [List.concat sum_list_with].
    rewrite fmap_app, std_copy_app, length_fmap, emitted_length.
    change (id (emit_count u)) with (emit_count u).
    rewrite Nat.add_assoc. reflexivity.
Qed.

Lemma scalar_value_valid c : scalar_value c -> invalid_scalar c = false.
Proof.
  intros [[H0 Hmax] Hs].
  unfold invalid_scalar, wrap32, CODE_POINT_MAX, LEAD_SURROGATE_MIN,
    TRAIL_SURROGATE_MAX.
  rewrite Z.mod_small by lia.
  apply orb_false_iff. split; [lia |].
  apply andb_false_iff.
  destruct (Z.lt_ge_cases c 0xD800); [left | right]; lia.
Qed.

Lemma scalar_values_valid checked units :
  Forall scalar_value units -> checked && existsb invalid_scalar units = false.
Proof.
  intros H. apply andb_false_iff. right.
  induction H as [|c l Hc _ IH]; simpl; [reflexivity |].
  rewrite (scalar_value_valid c Hc). exact IH.
Qed.

Lemma utf32to8_stores P checked u8 s :
  terminated s ->
  checked && existsb invalid_scalar (str s) = false ->
  utf32to8 P checked u8 s
  = Ret {| char_type := u8;
           str := (cast P u8 <$> List.concat (emitted <$> str s))
                  ++ zeros (4 * len s - 3
                            - length (List.concat (emitted <$> str s))) |}.
Proof.
  intros Ht Hv. destruct (terminated_split s Ht) as (body & Hstr & Hlen).
  assert (Hcount : length (List.concat (emitted <$> str s))
                   = sum_list (emit_count <$> str s)).
  { clear. induction (str s) as [|u l IH]; [reflexivity |].
    rewrite !fmap_cons. cbn [List.concat sum_list_with].
    rewrite length_app, emitted_length, IH. reflexivity. }
  assert (Hsum : (sum_list (emit_count <$> str s) <= 4 * len s - 3)%nat).
  { rewrite Hstr, fmap_app, sum_list_with_app, Hlen.
    pose proof (sum_emit_count_le body).
    change (sum_list (emit_count <$> [0])) with 1%nat. lia. }
  unfold utf32to8, utf32_run.
  rewrite utf32_loop_stores;
    [| exact Hv | cbn [res index]; rewrite start_buffer_length; lia].
  rewrite bind_Ret. cbn [res index]. f_equal.
  rewrite mk_metastr_zeros.
  replace (len s * 4 - 3)%nat with (4 * len s - 3)%nat by lia.
  rewrite std_copy_zeros by (rewrite length_fmap, Hcount; exact Hsum).
  rewrite length_fmap. reflexivity.
Qed.

(** X11: for an input that ends in a zero unit and whose units are scalar
    values below 0x10000, the UTF-32 conversion returns, in both modes, the
    UTF-8 encoding of the units one after the other (each byte converted to
    the target class), followed by zeros up to the capacity 4N-3. *)
Theorem utf32to8_bmp_is_utf8 P checked u8_type s :
  terminated s ->
  Forall (fun u => scalar_value u /\ u < 0x10000) (str s) ->
  utf32to8 P checked u8_type s
  = Ret {| char_type := u8_type;
           str := (cast P u8_type <$> List.concat (spec_utf8 <$> str s))
                  ++ zeros (4 * len s - 3
                            - length (List.concat (spec_utf8 <$> str s))) |}.
Proof.
  intros Ht Hall.
  assert (Hsc : Forall scalar_value (str s))
    by (eapply Forall_impl; [exact Hall | intros u [H _]; exact H]).
  rewrite utf32to8_stores by (try apply scalar_values_valid; assumption).
  assert (Hsame : emitted <$> str s = spec_utf8 <$> str s).
  { clear - Hall. induction Hall as [|u l [_ Hu] _ IH]; [reflexivity |].
    rewrite !fmap_cons, IH, (emitted_standard_below_0x10000 u Hu).
    reflexivity. }
  rewrite Hsame. reflexivity.
Qed.

Lemma utf32to8_bmp_is_utf8_witness :
  utf32to8 linux true Char8 (mk_metastr Char32 [0x6D4B; 0x901D; 0])
  = Ret {| char_type := Char8;
           str := [0xE6; 0xB5; 0x8B; 0xE9; 0x80; 0x9D; 0; 0; 0] |}.
Proof.
  apply (utf32to8_bmp_is_utf8 linux true Char8
           (mk_metastr Char32 [0x6D4B; 0x901D; 0]) eq_refl).
  repeat constructor; unfold scalar_value; lia.
Defined.

Lemma land_ffff_small u : 0 <= u < 0x10000 -> Z.land u 0xffff = u.
Proof.
  intros H. change 0xffff with (Z.ones 16). rewrite Z.land_ones by lia.
  apply Z.mod_small. exact H.
Qed.

Lemma spec_utf16_pair c :
  scalar_value c ->
  0x10000 <= c ->
  exists lead trail,
    spec_utf16 c = [lead; trail]
    /\ is_lead lead = true /\ is_trail trail = true
    /\ 0 <= lead < 0x10000 /\ 0 <= trail < 0x10000
    /\ spec_pair_scalar lead trail = c.
Proof.
  intros [[H0 Hmax] _] Hc. unfold spec_utf16.
  destruct (Z.ltb_spec c 0x10000); [lia |].
  eexists. eexists. split; [reflexivity |].
  set (d := c - 0x10000).
  assert (Hd : 0 <= d < 0x100000) by (subst d; lia).
  rewrite Z.shiftr_div_pow2 by lia.
  change 0x3ff with (Z.ones 10). rewrite Z.land_ones by lia.
  change (2 ^ 10) with 1024.
  pose proof (Z.div_mod d 1024 ltac:(lia)) as Hdm.
  pose proof (Z.mod_pos_bound d 1024 ltac:(lia)) as Hm.
  assert (Hq : 0 <= d / 1024 < 1024).
  { split; [apply Z.div_pos; lia | apply Z.div_lt_upper_bound; lia]. }
  unfold is_lead, is_trail, LEAD_SURROGATE_MIN, LEAD_SURROGATE_MAX,
    TRAIL_SURROGATE_MIN, TRAIL_SURROGATE_MAX, spec_pair_scalar.
  repeat split; try lia; try (apply andb_true_iff; split; lia).
Qed.

Lemma utf16_loop_text P checked u8 text :
  Forall scalar_value text ->
  forall st,
  utf16_loop P checked u8 (List.concat (spec_utf16 <$> text)) st
  = utf32_loop P checked u8 text st.
Proof.
  induction 1 as [|c text Hc _ IH]; intros st; [reflexivity |].
  rewrite fmap_cons. cbn [List.concat utf32_loop].
  rewrite (scalar_value_valid c Hc), andb_false_r.
  destruct (Z.lt_ge_cases c 0x10000) as [Hlt | Hge].
  - assert (Hu : spec_utf16 c = [c])
      by (unfold spec_utf16; destruct (Z.ltb_spec c 0x10000); [reflexivity | lia]).
    rewrite Hu. cbn [app utf16_loop].
    destruct Hc as [[H0 Hmax] Hs].
    rewrite land_ffff_small by lia.
    assert (Ht : is_trail c = false).
    { unfold is_trail, TRAIL_SURROGATE_MIN, TRAIL_SURROGATE_MAX.
      apply andb_false_iff.
      destruct (Z.lt_ge_cases c 0xDC00); [left | right]; lia. }
    assert (Hl : is_lead c = false).
    { unfold is_lead, LEAD_SURROGATE_MIN, LEAD_SURROGATE_MAX.
      apply andb_false_iff.
      destruct (Z.lt_ge_cases c 0xD800); [left | right]; lia. }
    rewrite Ht, Hl, andb_false_r.
    destruct (emit P u8 c st) as [st1 | | k]; [| reflexivity ..].
    rewrite !bind_Ret. apply IH.
  - destruct (spec_utf16_pair c Hc Hge)
      as (lead & trail & Hu & Hl & Ht & Hlr & Htr & Hsc).
    rewrite Hu. cbn [app utf16_loop].
    rewrite !land_ffff_small by assumption.
    rewrite (lead_not_trail lead Hl), Hl, Ht, andb_false_r.
    cbn [negb]. rewrite andb_false_r.
    rewrite (surrogate_pair_scalar lead trail Hl Ht), Hsc.
    destruct (emit P u8 c st) as [st1 | | k]; [| reflexivity ..].
    rewrite !bind_Ret. apply IH.
Qed.

Lemma emitted_total units :
  length (List.concat (emitted <$> units)) = sum_list (emit_count <$> units).
Proof.
  induction units as [|u l IH]; [reflexivity |].
  rewrite !fmap_cons. cbn [List.concat sum_list_with].
  rewrite length_app, emitted_length, IH. reflexivity.
Qed.

Lemma utf32_loop_fresh P checked u8 units cap :
  checked && existsb invalid_scalar units = false ->
  (sum_list (emit_count <$> units) <= cap)%nat ->
  utf32_loop P checked u8 units
    {| res := str (mk_metastr u8 (zeros cap)); index := 0 |}
  = Ret {| res := (cast P u8 <$> List.concat (emitted <$> units))
                  ++ zeros (cap - length (List.concat (emitted <$> units)));
           index := sum_list (emit_count <$> units) |}.
Proof.
  intros Hv Hsum.
  rewrite utf32_loop_stores;
    [| exact Hv | cbn [res index]; rewrite start_buffer_length; lia].
  cbn [res index]. rewrite mk_metastr_zeros.
  rewrite std_copy_zeros by (rewrite length_fmap, emitted_total; exact Hsum).
  rewrite length_fmap. reflexivity.
Qed.

Lemma spec_utf16_units text :
  (length text <= length (List.concat (spec_utf16 <$> text)))%nat.
Proof.
  induction text as [|c text IH]; [simpl; lia |].
  rewrite fmap_cons. cbn [List.concat]. rewrite length_app.
  destruct (spec_utf16_length c) as [[H1 _] _]. simpl length. lia.
Qed.

(** X12: for every text of scalar values, supplementary ones included, the
    UTF-16 conversion of its [u"..."] literal and the UTF-32 conversion of
    its [U"..."] literal return, in both modes, the same units followed by
    zeros; only the capacities differ (4N-3 for the respective N). *)
Theorem utf16to8_agrees_with_utf32to8 P checked u8_type text :
  Forall scalar_value text ->
  exists units,
    units = (cast P u8_type <$> List.concat (emitted <$> (text ++ [0])))
    /\ utf32to8 P checked u8_type (mk_metastr Char32 (text ++ [0]))
       = Ret {| char_type := u8_type;
                str := units
                       ++ zeros (4 * (length text + 1) - 3 - length units) |}
    /\ utf16to8 P checked u8_type (mk_metastr Char16 (u16_literal text))
       = Ret {| char_type := u8_type;
                str := units
                       ++ zeros (4 * length (u16_literal text) - 3
                                 - length units) |}.
Proof.
  intros Htext. eexists. split; [reflexivity |].
  assert (Hall : Forall scalar_value (text ++ [0])).
  { apply Forall_app. split; [exact Htext |].
    constructor; [unfold scalar_value; lia | constructor]. }
  assert (Hsum : (sum_list (emit_count <$> text ++ [0%Z]) <= 4 * length text + 1)%nat).
  { rewrite fmap_app, sum_list_with_app.
    pose proof (sum_emit_count_le text).
    change (sum_list (emit_count <$> [0])) with 1%nat. lia. }
  split.
  - unfold utf32to8, utf32_run.
    rewrite mk_metastr_snoc. unfold len. cbn [str].
    rewrite length_app. simpl length.
    rewrite utf32_loop_fresh by (try apply scalar_values_valid; try exact Hall; lia).
    rewrite bind_Ret. cbn [res]. rewrite length_fmap. do 4 f_equal. lia.
  - unfold utf16to8, utf16_run, u16_literal.
    rewrite mk_metastr_snoc. unfold len. cbn [str].
    assert (Hlit : List.concat (spec_utf16 <$> text) ++ [0]
                   = List.concat (spec_utf16 <$> text ++ [0])).
    { rewrite fmap_app, concat_app. reflexivity. }
    rewrite Hlit, utf16_loop_text by exact Hall.
    pose proof (spec_utf16_units (text ++ [0])) as Hlen.
    rewrite length_app in Hlen. simpl length in Hlen.
    rewrite utf32_loop_fresh by (try apply scalar_values_valid; try exact Hall; lia).
    rewrite bind_Ret. cbn [res]. rewrite length_fmap. reflexivity.
Qed.

Lemma utf16to8_agrees_with_utf32to8_witness :
  exists units,
    units = (cast linux Char8 <$> List.concat (emitted <$> ([0x1F600] ++ [0])))
    /\ utf32to8 linux true Char8 (mk_metastr Char32 ([0x1F600] ++ [0]))
       = Ret {| char_type := Char8; str := units ++ zeros (5 - length units) |}
    /\ utf16to8 linux true Char8 (mk_metastr Char16 (u16_literal [0x1F600]))
       = Ret {| char_type := Char8; str := units ++ zeros (9 - length units) |}.
Proof.
  apply (utf16to8_agrees_with_utf32to8 linux true Char8 [0x1F600]).
  repeat constructor; unfold scalar_value; lia.
Defined.

(** ** What the checks of checked mode change *)

Lemma utf32_loop_unchecked P u8 units :
  forall st st',
  utf32_loop P true u8 units st = Ret st' ->
  utf32_loop P false u8 units st = Ret st'.
Proof.
  induction units as [|u units IH]; intros st st' H; simpl in *.
  - exact H.
  - destruct (invalid_scalar u); [discriminate |].
    destruct (emit P u8 u st) as [st1 | | k]; try discriminate.
    rewrite bind_Ret in *. apply IH. exact H.
Qed.

Lemma utf16_loop_unchecked P u8 units :
  forall st st',
  utf16_loop P true u8 units st = Ret st' ->
  utf16_loop P false u8 units st = Ret st'.
Proof.
  induction units as [| x | x y l IHl IHy] using list_pair_ind;
    intros st st' H.
  - exact H.
  - cbn [utf16_loop andb] in *.
    destruct (is_trail (Z.land x 0xffff)); [discriminate |].
    destruct (is_lead (Z.land x 0xffff)); [discriminate | exact H].
  - cbn [utf16_loop andb] in *.
    destruct (is_trail (Z.land x 0xffff)); [discriminate |].
    destruct (is_lead (Z.land x 0xffff)).
    + destruct (is_trail (Z.land y 0xffff)); [| discriminate].
      cbn [negb] in H.
      match goal with |- (emit _ _ ?c _ ≫= _) = _ =>
        destruct (emit P u8 c st) as [st1 | | k] end; try discriminate.
      rewrite bind_Ret in *. apply IHl. exact H.
    + destruct (emit P u8 (Z.land x 0xffff) st) as [st1 | | k];
        try discriminate.
      rewrite bind_Ret in *. apply IHy. exact H.
Qed.

(** X13: the checks of checked mode only add aborts: whenever [code_cvt]
    returns a metastr with the checks compiled in, it returns the same
    metastr with NDEBUG defined. *)
Theorem code_cvt_checks_only_abort P Char_r s r :
  code_cvt P true Char_r s = Some (Ret r) ->
  code_cvt P false Char_r s = Some (Ret r).
Proof.
  unfold code_cvt. intros H.
  repeat case_match; try discriminate; try exact H;
    injection H as H; f_equal.
  - unfold utf32to8, utf32_run in *.
    apply bind_Ret_inv in H as (st & Hl & Hr).
    rewrite (utf32_loop_unchecked _ _ _ _ _ Hl). exact Hr.
  - unfold utf16to8, utf16_run in *.
    apply bind_Ret_inv in H as (st & Hl & Hr).
    rewrite (utf16_loop_unchecked _ _ _ _ _ Hl). exact Hr.
Qed.

Lemma code_cvt_checks_only_abort_witness :
  code_cvt linux false Char8 (mk_metastr Char16 [0xD83D; 0xDE00; 0])
  = Some (Ret {| char_type := Char8;
                 str := [0xF0; 0x9F; 0x18; 0x80; 0; 0; 0; 0; 0] |}).
Proof.
  exact (code_cvt_checks_only_abort linux Char8
           (mk_metastr Char16 [0xD83D; 0xDE00; 0]) _ eq_refl).
Defined.

(** X14: in checked mode the UTF-32 conversion of an input that ends in a
    zero unit returns a metastr exactly when no unit fails the validity
    test (above 0x10FFFF as an unsigned value, or in 0xD800-0xDFFF); it
    aborts otherwise. *)
Theorem checked_utf32to8_returns_iff_valid P u8_type s :
  terminated s ->
  ((exists r, utf32to8 P true u8_type s = Ret r)
   <-> existsb invalid_scalar (str s) = false)
  /\ (utf32to8 P true u8_type s = Abort
      <-> existsb invalid_scalar (str s) = true).
Proof.
  intros Ht.
  destruct (terminated_split s Ht) as (body & Hstr & Hlen).
  destruct (existsb invalid_scalar (str s)) eqn:Hex.
  - assert (Ha : utf32to8 P true u8_type s = Abort).
    { unfold utf32to8, utf32_run.
      rewrite utf32_loop_abort; [reflexivity | exact Hex |].
      cbn [res index]. rewrite start_buffer_length. fold (len s). lia. }
    rewrite Ha. split; split; try reflexivity; try discriminate.
    intros [r Hr]. discriminate Hr.
  - rewrite utf32to8_stores by (try exact Ht; rewrite Hex; reflexivity).
    split; split; try discriminate; try reflexivity.
    intros _. eexists. reflexivity.
Qed.

Lemma checked_utf32to8_returns_iff_valid_witness :
  exists r, utf32to8 linux true Char8 (mk_metastr Char32 [0x10FFFF; 0]) = Ret r.
Proof.
  apply (proj1 (checked_utf32to8_returns_iff_valid linux Char8
                  (mk_metastr Char32 [0x10FFFF; 0]) eq_refl)).
  reflexivity.
Defined.

Lemma utf16_loop_checked_ret P u8 units :
  forall st st',
  utf16_loop P true u8 units st = Ret st' -> well_paired units = true.
Proof.
  induction units as [| x | x y l IHl IHy] using list_pair_ind;
    intros st st' H.
  - reflexivity.
  - cbn [utf16_loop andb well_paired] in *.
    destruct (is_trail (Z.land x 0xffff)); [discriminate |].
    destruct (is_lead (Z.land x 0xffff)); [discriminate | reflexivity].
  - cbn [utf16_loop andb well_paired] in *.
    destruct (is_trail (Z.land x 0xffff)); [discriminate |].
    destruct (is_lead (Z.land x 0xffff)).
    + destruct (is_trail (Z.land y 0xffff)); [| discriminate].
      cbn [negb andb] in *.
      apply bind_Ret_inv in H as (st1 & _ & H). exact (IHl _ _ H).
    + apply bind_Ret_inv in H as (st1 & _ & H). exact (IHy _ _ H).
Qed.

Lemma utf16_loop_checked_abort P u8 units :
  forall st,
  utf16_loop P true u8 units st = Abort -> well_paired units = false.
Proof.
  induction units as [| x | x y l IHl IHy] using list_pair_ind;
    intros st H.
  - discriminate.
  - cbn [utf16_loop andb well_paired] in *.
    destruct (is_trail (Z.land x 0xffff)); [reflexivity |].
    destruct (is_lead (Z.land x 0xffff)); [reflexivity |].
    destruct (emit_cases P u8 (Z.land x 0xffff) st) as [(s' & He & _) | He];
      rewrite He in H; discriminate.
  - cbn [utf16_loop andb well_paired] in *.
    destruct (is_trail (Z.land x 0xffff)); [reflexivity |].
    destruct (is_lead (Z.land x 0xffff)).
    + destruct (is_trail (Z.land y 0xffff)); [| reflexivity].
      cbn [negb andb] in *.
      match type of H with (emit _ _ ?c _ ≫= _) = _ =>
        destruct (emit_cases P u8 c st) as [(s' & He & _) | He] end;
        rewrite He in H; [| discriminate].
      rewrite bind_Ret in H. exact (IHl _ H).
    + destruct (emit_cases P u8 (Z.land x 0xffff) st) as [(s' & He & _) | He];
        rewrite He in H; [| discriminate].
      rewrite bind_Ret in H. exact (IHy _ H).
Qed.

(** X15: in checked mode the UTF-16 conversion of an input that ends in a
    zero unit returns a metastr exactly when every lead surrogate is
    followed by a trail surrogate and no trail surrogate stands alone; it
    aborts otherwise. *)
Theorem checked_utf16to8_returns_iff_well_paired P u8_type s :
  terminated s ->
  ((exists r, utf16to8 P true u8_type s = Ret r)
   <-> well_paired (str s) = true)
  /\ (utf16to8 P true u8_type s = Abort <-> well_paired (str s) = false).
Proof.
  intros Ht. unfold utf16to8.
  destruct (utf16_run_terminated P true u8_type s Ht)
    as [[_ Ha] | (st & Hr & _)].
  - pose proof (utf16_loop_checked_abort _ _ _ _ Ha) as Hw.
    rewrite Ha, Hw, bind_Abort.
    split; split; try reflexivity; try discriminate.
    intros [r Hr]. discriminate Hr.
  - pose proof (utf16_loop_checked_ret _ _ _ _ _ Hr) as Hw.
    rewrite Hr, Hw, bind_Ret.
    split; split; try reflexivity; try discriminate.
    intros _. eexists. reflexivity.
Qed.

Lemma checked_utf16to8_returns_iff_well_paired_witness :
  utf16to8 linux true Char8 (mk_metastr Char16 [0x61; 0xDE00; 0]) = Abort.
Proof.
  apply (proj2 (checked_utf16to8_returns_iff_well_paired linux Char8
                  (mk_metastr Char16 [0x61; 0xDE00; 0]) eq_refl)).
  reflexivity.
Defined.

(** ** More on concat *)

Lemma terminated_record s :
  terminated s -> s = {| char_type := char_type s; str := content s ++ [0] |}.
Proof.
  intros Ht. destruct (terminated_split s Ht) as (body & Hstr & Hlen).
  destruct s as [c l]. cbn [char_type str] in *. f_equal.
  unfold content, len. cbn [str]. subst l.
  rewrite length_app. simpl. rewrite Nat.add_sub, take_app_length.
  reflexivity.
Qed.

(** X16: the empty literal is neutral for [concat] on either side:
    concatenating a metastr that ends in a zero unit with [""] of its class
    gives the metastr itself. *)
Theorem concat_empty_literal_neutral A :
  terminated A ->
  concat A [mk_metastr (char_type A) [0]] = Some A
  /\ concat (mk_metastr (char_type A) [0]) [A] = Some A
  /\ concat_args [a_metastr A; a_c_str (char_type A) [0]] = Some A.
Proof.
  intros Ht.
  destruct (terminated_split A Ht) as (body & Hstr & Hlen).
  assert (He : content (mk_metastr (char_type A) [0]) = []) by reflexivity.
  assert (H1 : concat A [mk_metastr (char_type A) [0]] = Some A).
  { rewrite concat_spec;
      [| discriminate | lia | repeat constructor | repeat constructor].
    f_equal. symmetry.
    etransitivity; [exact (terminated_record A Ht) | reflexivity]. }
  split; [exact H1 |]. split; [| exact H1].
  rewrite concat_spec;
    [| discriminate | repeat constructor | repeat constructor; lia
     | repeat constructor].
  f_equal. symmetry.
  etransitivity; [exact (terminated_record A Ht) |].
  cbn [fmap list_fmap List.concat char_type]. rewrite He, app_nil_r.
  reflexivity.
Qed.

Lemma concat_empty_literal_neutral_witness :
  concat (mk_metastr Char (lit "abc")) [mk_metastr Char (lit "")]
  = Some (mk_metastr Char (lit "abc")).
Proof.
  exact (proj1 (concat_empty_literal_neutral (mk_metastr Char (lit "abc"))
                  eq_refl)).
Defined.

(** X17: a call of [concat] on a list of inputs can be cut anywhere:
    concatenating the first part and then the result with the rest gives
    the metastr of the single call, for inputs of one class. *)
Theorem concat_split A l1 l2 :
  l1 <> [] -> l2 <> [] ->
  Forall (fun s => (1 <= len s)%nat) (A :: l1 ++ l2) ->
  Forall (fun s => char_type A = char_type s) (l1 ++ l2) ->
  exists ab,
    concat A l1 = Some ab
    /\ concat ab l2 = concat A (l1 ++ l2)
    /\ (len ab - 1 = sum_list ((fun s => (len s - 1)%nat) <$> (A :: l1)))%nat.
Proof.
  intros Hn1 Hn2 Hlen Hcls.
  apply Forall_cons in Hlen as [HA Hlen].
  apply Forall_app in Hlen as [Hlen1 Hlen2].
  apply Forall_app in Hcls as [Hcls1 Hcls2].
  rewrite (concat_spec A l1) by assumption.
  eexists. split; [reflexivity |].
  set (ab := {| char_type := char_type A; str := _ |}).
  assert (Hab : len ab = (length (content A ++ List.concat (content <$> l1)) + 1)%nat).
  { subst ab. unfold len at 1. cbn [str].
    rewrite app_assoc, length_app. reflexivity. }
  assert (Hcontent : content ab = content A ++ List.concat (content <$> l1)).
  { unfold content at 1. rewrite Hab, Nat.add_sub. subst ab. cbn [str].
    rewrite app_assoc. apply take_app_length. }
  split.
  - rewrite (concat_spec ab l2);
      [| assumption | lia | assumption | subst ab; exact Hcls2].
    rewrite (concat_spec A (l1 ++ l2));
      [| destruct l1; [congruence | discriminate] | assumption
       | apply Forall_app; split; assumption
       | apply Forall_app; split; assumption].
    rewrite Hcontent. subst ab. cbn [char_type].
    rewrite fmap_app, concat_app, <- !app_assoc. reflexivity.
  - rewrite Hab, Nat.add_sub, fmap_cons. cbn [sum_list_with].
    rewrite length_app, content_length, concat_content_length. reflexivity.
Qed.

Lemma concat_split_witness :
  exists ab,
    concat (mk_metastr Char (lit "a")) [mk_metastr Char (lit "bc")] = Some ab
    /\ concat ab [mk_metastr Char (lit "d"); mk_metastr Char (lit "ef")]
       = concat (mk_metastr Char (lit "a"))
           ([mk_metastr Char (lit "bc")]
            ++ [mk_metastr Char (lit "d"); mk_metastr Char (lit "ef")])
    /\ (len ab - 1 = 3)%nat.
Proof.
  apply (concat_split (mk_metastr Char (lit "a")) [mk_metastr Char (lit "bc")]
           [mk_metastr Char (lit "d"); mk_metastr Char (lit "ef")]);
    solve [ discriminate | repeat constructor ].
Defined.

(** ** The named tuple *)

Lemma get_size_length Names k : get_size Names k = (k + length Names)%nat.
Proof.
  revert k. induction Names as [|n Names IH]; intros k; simpl.
  - lia.
  - destruct Names as [|n' Names']; [simpl; lia |].
    rewrite IH. simpl. lia.
Qed.

Lemma get_name_app pre n post k :
  get_name (k + length pre) (pre ++ n :: post) k = current_val n.
Proof.
  revert k. induction pre as [|a pre IH]; intros k; simpl.
  - rewrite Nat.add_0_r, Nat.eqb_refl. reflexivity.
  - destruct (Nat.eqb_spec k (k + S (length pre))); [lia |].
    replace (k + S (length pre))%nat with (S k + length pre)%nat by lia.
    apply IH.
Qed.

(** The chain of instantiations is one pass over the names: the fuel given
    by [get] is never what ends it. *)
Lemma get_index_scan str post :
  forall pre fuel,
  (length post <= S fuel)%nat ->
  get_index fuel str (pre ++ post) (length pre) = get_scan str post (length pre).
Proof.
  induction post as [|n post IH]; intros pre fuel Hfuel.
  - rewrite app_nil_r. destruct fuel; simpl;
      rewrite get_size_length, Nat.add_0_l, Nat.ltb_irrefl; reflexivity.
  - assert (Hlt : (length pre <? get_size (pre ++ n :: post) 0)%nat = true).
    { apply Nat.ltb_lt. rewrite get_size_length, length_app. simpl. lia. }
    assert (Hname : get_name (length pre) (pre ++ n :: post) 0 = current_val n)
      by apply (get_name_app pre n post 0).
    cbn [get_scan].
    destruct fuel as [|fuel]; cbn [get_index]; rewrite Hlt, Hname.
    + destruct (current_val n) as [[c val] |]; [| reflexivity].
      destruct (eq_view str c val) as [[|] | | ]; try reflexivity.
      simpl in Hfuel. destruct post; [reflexivity | simpl in Hfuel; lia].
    + destruct (current_val n) as [[c val] |]; [| reflexivity].
      destruct (eq_view str c val) as [[|] | | ]; try reflexivity.
      replace (pre ++ n :: post) with ((pre ++ [n]) ++ post)
        by (rewrite <- app_assoc; reflexivity).
      replace (S (length pre)) with (length (pre ++ [n]))
        by (rewrite length_app; simpl; lia).
      apply IH. simpl in Hfuel. lia.
Qed.

Lemma get_is_scan {V} str (nt : namedtuple V) :
  get str nt = (get_scan str (nt_names nt) 0 ≫= fun index => tuple nt !! index).
Proof.
  unfold get.
  pose proof (get_index_scan str (nt_names nt) [] (get_size (nt_names nt) 0))
    as H.
  cbn [app length] in H. rewrite H; [reflexivity |].
  rewrite get_size_length. lia.
Qed.

Lemma get_scan_found str post :
  forall k i,
  get_scan str post k = Some i ->
  exists name c val,
    (k <= i)%nat
    /\ post !! (i - k)%nat = Some name
    /\ current_val name = Some (c, val)
    /\ eq_view str c val = Ret true
    /\ forall j name',
         (j < i - k)%nat ->
         post !! j = Some name' ->
         exists c' val',
           current_val name' = Some (c', val')
           /\ eq_view str c' val' = Ret false.
Proof.
  induction post as [|n post IH]; intros k i H; [discriminate |].
  cbn [get_scan] in H.
  destruct (current_val n) as [[c val] |] eqn:Hcv; [| discriminate].
  destruct (eq_view str c val) as [[|] | | ] eqn:Heq; try discriminate.
  - injection H as <-. exists n, c, val.
    rewrite Nat.sub_diag.
    split; [lia |]. split; [reflexivity |]. split; [assumption |].
    split; [assumption |]. intros j name' Hj. lia.
  - destruct (IH _ _ H) as (name & c1 & val1 & Hk & Hl & Hc1 & He1 & Hbefore).
    exists name, c1, val1.
    replace (i - k)%nat with (S (i - S k)) by lia.
    split; [lia |]. split; [exact Hl |]. split; [assumption |].
    split; [assumption |].
    intros j name' Hj Hl'. destruct j as [|j].
    + injection Hl' as <-. exists c, val. split; assumption.
    + apply (Hbefore j name'); [lia | exact Hl'].
Qed.

(** X18: when [get<str>] resolves, the field it returns is the one of the
    first name that compares equal to [str]: every name before it was
    compared and found different, and the index is inside the tuple. *)
Theorem get_returns_first_match {V : Type} str (nt : namedtuple V) v :
  get str nt = Some v ->
  exists i name c val,
    nt_names nt !! i = Some name
    /\ tuple nt !! i = Some v
    /\ current_val name = Some (c, val)
    /\ eq_view str c val = Ret true
    /\ forall j name',
         (j < i)%nat ->
         nt_names nt !! j = Some name' ->
         exists c' val',
           current_val name' = Some (c', val')
           /\ eq_view str c' val' = Ret false.
Proof.
  rewrite get_is_scan. intros H.
  destruct (get_scan str (nt_names nt) 0) as [i |] eqn:Hs; [| discriminate].
  simpl in H.
  destruct (get_scan_found _ _ _ _ Hs)
    as (name & c & val & _ & Hl & Hc & He & Hb).
  rewrite Nat.sub_0_r in *.
  exists i, name, c, val. repeat split; assumption.
Qed.

Lemma get_returns_first_match_witness :
  exists i name c val,
    [mk_metastr Char (lit "name"); mk_metastr Char (lit "age")] !! i = Some name
    /\ [10; 20] !! i = Some 20
    /\ current_val name = Some (c, val)
    /\ eq_view (mk_metastr Char (lit "age")) c val = Ret true.
Proof.
  destruct (get_returns_first_match (mk_metastr Char (lit "age"))
              {| nt_names := [mk_metastr Char (lit "name");
                              mk_metastr Char (lit "age")];
                 tuple := [10; 20] |} 20 eq_refl)
    as (i & name & c & val & H1 & H2 & H3 & H4 & _).
  exists i, name, c, val. repeat split; assumption.
Defined.

Lemma unit_eq_same ca cb a : unit_eq ca cb a a = true.
Proof. unfold unit_eq. case_match; apply Z.eqb_refl. Qed.

Lemma c_str_view_plain body rest :
  Forall (fun u => u <> 0) body ->
  c_str_view (body ++ 0 :: rest) = Ret body.
Proof.
  induction 1 as [|u body Hu _ IH]; simpl.
  - reflexivity.
  - destruct (Z.eqb_spec u 0); [contradiction |].
    rewrite IH. reflexivity.
Qed.



Lemma eq_array_self s c :
  terminated s -> (2 <= len s)%nat -> eq_array s c (str s) = Ret true.
Proof.
  intros Ht Hl. unfold eq_array. fold (len s). rewrite Nat.leb_refl.
  destruct (Nat.ltb_spec (len s) 2); [lia |].
  rewrite std_equal_refl by (try apply unit_eq_same; fold (len s); lia).
  cbn [negb]. rewrite (terminated_drop s Ht). simpl.
  rewrite is_nul_0. reflexivity.
Qed.

Lemma plain_terminated s : plain s -> terminated s /\ (2 <= len s)%nat.
Proof.
  intros (body & Hs & Hne & _). unfold terminated, len. rewrite Hs.
  split; [apply last_snoc |].
  rewrite length_app. destruct body; [congruence | simpl; lia].
Qed.

Lemma plain_current_val s body :
  str s = body ++ [0] ->
  Forall (fun u => u <> 0 /\ - 2 ^ 32 < u < 2 ^ 32) body ->
  current_val s = Some (char_type s, body).
Proof.
  intros Hs Hb. unfold current_val. rewrite Hs, c_str_view_plain; [reflexivity |].
  eapply Forall_impl; [exact Hb | intros u [H _]; exact H].
Qed.

Lemma eq_view_defined s c v :
  (2 <= len s)%nat -> v <> [] -> exists b, eq_view s c v = Ret b.
Proof.
  intros Hl Hv. unfold eq_view.
  assert (1 <= length v)%nat by (destruct v; simpl; [congruence | lia]).
  destruct (Nat.leb_spec (len s) (length v)).
  - destruct (Nat.ltb_spec (len s) 2); [lia |].
    case_match; eexists; reflexivity.
  - destruct (Nat.ltb_spec (length v) 1); [lia |].
    case_match; eexists; reflexivity.
Qed.

Lemma get_scan_present label post :
  plain label ->
  forall k i name,
  Forall plain post ->
  post !! i = Some name ->
  str name = str label ->
  exists j, (k <= j <= k + i)%nat /\ get_scan label post k = Some j.
Proof.
  intros Hlabel. destruct (plain_terminated label Hlabel) as [Ht Hl].
  induction post as [|n post IH]; intros k i name Hall Hi Hstr;
    [destruct i; discriminate |].
  apply Forall_cons in Hall as [Hn Hall].
  destruct Hn as (bn & Hsn & Hnen & Hfn).
  cbn [get_scan]. rewrite (plain_current_val n bn Hsn Hfn).
  destruct (eq_view_defined label (char_type n) bn Hl Hnen) as [b Hb].
  rewrite Hb. destruct b.
  - exists k. split; [lia | reflexivity].
  - destruct i as [|i].
    + injection Hi as <-. exfalso.
      rewrite eq_view_array in Hb by exact Ht.
      rewrite <- Hsn, Hstr in Hb.
      rewrite (eq_array_self label (char_type n) Ht Hl) in Hb. discriminate.
    + destruct (IH (S k) i name Hall Hi Hstr) as (j & Hj & Hs).
      exists j. split; [lia | exact Hs].
Qed.

Lemma make_namedtuple_Some {V : Type} Str (args : list V) nt :
  make_namedtuple Str args = Some nt ->
  nt_names nt = Str /\ tuple nt = args /\ length args = length Str.
Proof.
  unfold make_namedtuple. destruct Str as [|n Str]; [discriminate |].
  case_match eqn:Hc; [| discriminate]. intros [= <-].
  apply andb_true_iff in Hc as [Hc _]. apply Nat.eqb_eq in Hc.
  repeat split. symmetry. exact Hc.
Qed.

(** X20: in a tuple built by [make_namedtuple] from names written plainly,
    looking up a label that is one of the names always resolves, to the
    field of that name or of an earlier one that compares equal. *)
Theorem get_finds_present_label {V : Type} label Str (args : list V) nt i name :
  make_namedtuple Str args = Some nt ->
  plain label ->
  Forall plain Str ->
  Str !! i = Some name ->
  str name = str label ->
  exists j v,
    (j <= i)%nat /\ get_at j nt = Some v /\ get label nt = Some v.
Proof.
  intros Hmk Hlabel Hall Hi Hstr.
  destruct (make_namedtuple_Some _ _ _ Hmk) as (Hn & Ht & Hlen).
  destruct (get_scan_present label Str Hlabel 0 i name Hall Hi Hstr)
    as (j & Hj & Hs).
  assert (Hin : (j < length (tuple nt))%nat).
  { rewrite Ht, Hlen. apply lookup_lt_Some in Hi. lia. }
  destruct (lookup_lt_is_Some_2 _ _ Hin) as [v Hv].
  exists j, v. split; [lia |]. split; [exact Hv |].
  rewrite get_is_scan, Hn, Hs. exact Hv.
Qed.

Lemma get_finds_present_label_witness :
  exists j v,
    (j <= 1)%nat
    /\ get_at j {| nt_names := [mk_metastr Char (lit "name");
                                mk_metastr Char (lit "age")];
                   tuple := [10; 20] |} = Some v
    /\ get (mk_metastr Char (lit "age"))
         {| nt_names := [mk_metastr Char (lit "name");
                         mk_metastr Char (lit "age")];
            tuple := [10; 20] |} = Some v.
Proof.
  apply (get_finds_present_label (mk_metastr Char (lit "age"))
           [mk_metastr Char (lit "name"); mk_metastr Char (lit "age")]
           [10; 20] _ 1 (mk_metastr Char (lit "age"))).
  - reflexivity.
  - exists [0x61; 0x67; 0x65]. split; [reflexivity |].
    split; [discriminate |]. repeat constructor; lia.
  - constructor; [| constructor; [| constructor]].
    + exists [0x6e; 0x61; 0x6d; 0x65]. split; [reflexivity |].
      split; [discriminate |]. repeat constructor; lia.
    + exists [0x61; 0x67; 0x65]. split; [reflexivity |].
      split; [discriminate |]. repeat constructor; lia.
  - reflexivity.
  - reflexivity.
Defined.



Lemma ascii_cast P c u : 0 <= u < 0x80 -> cast P c u = u.
Proof.
  intros H. apply cast_in_range. unfold in_range.
  destruct c, P as [[|] [|]]; simpl; lia.
Qed.

Lemma ascii_emitted units :
  Forall (fun u => 0 <= u < 0x80) units ->
  List.concat (emitted <$> units) = units.
Proof.
  induction 1 as [|u l Hu _ IH]; [reflexivity |].
  rewrite fmap_cons. cbn [List.concat]. rewrite IH.
  unfold emitted. destruct (Z.ltb_spec u 0x80); [reflexivity | lia].
Qed.

Lemma bmp_spec_utf16 units :
  Forall (fun u => u < 0x10000) units ->
  List.concat (spec_utf16 <$> units) = units.
Proof.
  induction 1 as [|u l Hu _ IH]; [reflexivity |].
  rewrite fmap_cons. cbn [List.concat]. rewrite IH.
  unfold spec_utf16. destruct (Z.ltb_spec u 0x10000); [reflexivity | lia].
Qed.

Lemma eq_array_pad s c k :
  terminated s -> (2 <= len s)%nat ->
  eq_array s c (str s ++ zeros k) = Ret true.
Proof.
  intros Ht Hl. unfold eq_array.
  rewrite length_app. fold (len s). unfold zeros at 1. rewrite length_replicate.
  destruct (Nat.leb_spec (len s) (len s + k)); [| lia].
  destruct (Nat.ltb_spec (len s) 2); [lia |].
  rewrite std_equal_app_r by (fold (len s); lia).
  rewrite std_equal_refl by (try apply unit_eq_same; fold (len s); lia).
  cbn [negb]. rewrite drop_app_le by (fold (len s); lia).
  rewrite (terminated_drop s Ht). simpl.
  rewrite is_nul_0, forallb_is_nul_zeros. reflexivity.
Qed.

(** X23: an input of ASCII units (0 to 0x7F) that ends in a zero unit is
    converted to UTF-8, from UTF-32 and from UTF-16 and in both modes, into
    the same units followed by 3N-3 zeros; the result compares equal to the
    input, in either order, when the input has at least one character. *)
Theorem code_cvt_ascii_unchanged P checked Char_r s :
  terminated s ->
  Forall (fun u => 0 <= u < 0x80) (str s) ->
  is_utf8 Char_r = true ->
  is_utf32 P (char_type s) || is_utf16 P (char_type s) = true ->
  exists r,
    code_cvt P checked Char_r s = Some (Ret r)
    /\ r = {| char_type := Char_r; str := str s ++ zeros (3 * len s - 3) |}
    /\ ((2 <= len s)%nat ->
        eq_metastr s r = Ret true /\ eq_metastr r s = Ret true).
Proof.
  intros Ht Hascii H8 Hsrc.
  assert (Hsc : Forall scalar_value (str s)).
  { eapply Forall_impl; [exact Hascii |].
    intros u Hu. simpl in Hu. unfold scalar_value. lia. }
  assert (Hraw : utf32to8 P checked Char_r s
                 = Ret {| char_type := Char_r;
                          str := str s ++ zeros (3 * len s - 3) |}).
  { rewrite utf32to8_stores by (try apply scalar_values_valid; assumption).
    rewrite (ascii_emitted _ Hascii).
    assert (Hcast : cast P Char_r <$> str s = str s).
    { clear - Hascii. induction Hascii as [|u l Hu _ IH]; [reflexivity |].
      rewrite fmap_cons, IH, (ascii_cast _ _ _ Hu). reflexivity. }
    rewrite Hcast. fold (len s).
    replace (4 * len s - 3 - len s)%nat with (3 * len s - 3)%nat by lia.
    reflexivity. }
  assert (Hcvt : code_cvt P checked Char_r s
                 = Some (Ret {| char_type := Char_r;
                                str := str s ++ zeros (3 * len s - 3) |})).
  { apply orb_true_iff in Hsrc as [H32 | H16].
    - rewrite code_cvt_utf32 by assumption. f_equal. exact Hraw.
    - rewrite code_cvt_utf16 by assumption. f_equal.
      rewrite <- Hraw. unfold utf16to8, utf32to8, utf16_run, utf32_run.
      replace (len s * 4 - 3)%nat with (4 * len s - 3)%nat by lia.
      rewrite <- (bmp_spec_utf16 (str s)) at 1
        by (eapply Forall_impl; [exact Hascii | intros u Hu; simpl in *; lia]).
      rewrite utf16_loop_text by exact Hsc. reflexivity. }
  eexists. split; [exact Hcvt |]. split; [reflexivity |].
  intros Hl.
  assert (Hfwd : eq_metastr s {| char_type := Char_r;
                                 str := str s ++ zeros (3 * len s - 3) |}
                 = Ret true)
    by (apply eq_array_pad; assumption).
  split; [exact Hfwd |].
  rewrite eq_metastr_sym; [exact Hfwd | | exact Ht].
  apply (code_cvt_terminated P checked Char_r s _ Ht Hcvt).
Qed.

Lemma code_cvt_ascii_unchanged_witness :
  exists r,
    code_cvt linux true Char8 (mk_metastr Char16 (lit "abc")) = Some (Ret r)
    /\ r = {| char_type := Char8;
              str := str (mk_metastr Char16 (lit "abc")) ++ zeros 9 |}
    /\ ((2 <= 4)%nat ->
        eq_metastr (mk_metastr Char16 (lit "abc")) r = Ret true
        /\ eq_metastr r (mk_metastr Char16 (lit "abc")) = Ret true).
Proof.
  apply (code_cvt_ascii_unchanged linux true Char8
           (mk_metastr Char16 (lit "abc"))).
  - reflexivity.
  - repeat constructor; lia.
  - reflexivity.
  - reflexivity.
Defined.
